(** * @jshow/cli: registry, lifecycle orchestration and discovery

    A shallow embedding of [src/program.ts] (the [CommandProgram] registry),
    [src/command.ts] ([BaseCommand] and its action wrapper), [src/plugin.ts]
    ([BasePlugin]) and the two loaders of [src/cli.ts].

    - JavaScript strings are sequences of UTF-16 code units; numbers are the
      integers, which stand for the doubles in their order, and [NaN].
    - User code (hooks, [execute], [onError]) is a state transformer over an
      abstract world [W] that either completes normally or throws.  The
      object of option values that the parser keeps for a sub-command is
      part of the world: the hooks are handed that object in their context,
      and what they write to it is what the validation and [execute] read.
      The other fields of the context are plain values.
    - The constructor of a plugin and its [priority] getter are user code as
      well: each returns or throws.
    - The calls the orchestrator makes into user code are recorded, in order,
      in a ghost trace carried next to the world. *)

From Stdlib Require Import ZArith NArith List Ascii String Sorted Permutation Lia.
From stdpp Require Import base option list gmap.

Set Default Proof Using "Type".
Local Open Scope Z_scope.

(** ** JavaScript values *)

Module JS.

(** A string is its sequence of UTF-16 code units. *)
Definition jsstring := list N.

(** The code units of an ASCII literal of the source. *)
Definition lit (s : string) : jsstring :=
  List.map N_of_ascii (list_ascii_of_string s).

(** The values an option can be parsed to.  Numbers are the integer-valued
    ones, which is all the option checks distinguish ([0] from the rest). *)
Inductive value :=
| Undefined
| Null
| Bool (b : bool)
| Number (n : Z)
| Str (s : jsstring)
| Object.

#[global] Instance value_eq_dec : EqDecision value.
Proof. solve_decision. Defined.

(** The numbers that are compared: an integer stands for a double that is
    not [NaN], in the order of the doubles, and [NaN] is apart. *)
Inductive number :=
| Num (z : Z)
| NaN.

#[global] Instance number_eq_dec : EqDecision number.
Proof. solve_decision. Defined.

(** [a - b]; with [NaN] on either side it is [NaN].  (So is, for the
    doubles, the difference of two equal infinities; [sort] reads it as
    [+0], which is what the difference of two equal integers is.) *)
Definition sub (a b : number) : number :=
  match a, b with
  | Num x, Num y => Num (x - y)
  | _, _ => NaN
  end.

(** [a <= b], which is false with [NaN] on either side. *)
Definition le (a b : number) : Prop :=
  match a, b with
  | Num x, Num y => x ≤ y
  | _, _ => False
  end.

(** [v == null] *)
Definition eq_null (v : value) : bool :=
  match v with
  | Undefined | Null => true
  | _ => false
  end.

(** Truthiness of a value, of an optional boolean field and of a
    [string | null]. *)
Definition truthy (v : value) : bool :=
  match v with
  | Undefined | Null => false
  | Bool b => b
  | Number n => negb (n =? 0)
  | Str s => negb (bool_decide (s = []))
  | Object => true
  end.

Definition truthy_flag (b : option bool) : bool := default false b.

Definition truthy_string (s : option jsstring) : bool :=
  match s with
  | Some (_ :: _) => true
  | _ => false
  end.

(** A plain object used as a record of option values; reading a key that
    is not there gives [undefined]. *)
Definition get (o : gmap jsstring value) (k : jsstring) : value :=
  default Undefined (o !! k).

(** What can be thrown: [new Error(message)], or any other value of the
    user's code. *)
Inductive thrown (Exn : Type) :=
| Error (message : jsstring)
| Raised (e : Exn).
Arguments Error {Exn} message.
Arguments Raised {Exn} e.

(** How a call ends. *)
Inductive completion (Exn A : Type) :=
| Normal (a : A)
| Throw (e : thrown Exn).
Arguments Normal {Exn A} a.
Arguments Throw {Exn A} e.

(** User code: it changes the world and completes. *)
Definition user (W Exn A : Type) := W → W * completion Exn A.

(** What [sort] makes of the answer of its comparison: [NaN] counts as
    [+0]. *)
Definition sort_compare (v : number) : Z :=
  match v with
  | Num z => z
  | NaN => 0
  end.

(** [cmp(y, x) > 0]: [y] is to stand behind [x]. *)
Definition greater {A} (cmp : A → A → number) (y x : A) : bool :=
  0 <? sort_compare (cmp y x).

(** [Array.prototype.sort(cmp)], as the insertion sort that goes through the
    array from left to right and moves each element to the left, past the
    elements that compare greater than it, up to the first one that does
    not: the element comes to stand in front of the longest tail of
    elements that all compare greater.  For a comparison that is a
    consistent order this is the one stable sort.  For one that is not, as
    with a [NaN] answer, the standard leaves the order to the engine; the
    model's is that of this insertion sort. *)
Fixpoint insert {A} (cmp : A → A → number) (x : A) (l : list A) : list A :=
  match l with
  | [] => [x]
  | y :: l' => if forallb (λ z, greater cmp z x) l then x :: l else y :: insert cmp x l'
  end.

Definition sort {A} (cmp : A → A → number) (l : list A) : list A :=
  foldl (λ acc x, insert cmp x acc) [] l.

(** A comparison of keys, [(a, b) => key(a) - key(b)], the order it is
    meant to sort by, and the elements of one key. *)
Definition key_cmp {A} (key : A → number) (a b : A) : number := sub (key a) (key b).
Definition key_le {A} (key : A → number) (a b : A) : Prop := le (key a) (key b).
Definition has_key {A} (key : A → number) (k : Z) (a : A) : bool :=
  bool_decide (key a = Num k).

(** [names.includes(name)] *)
Definition includes (names : list jsstring) (name : jsstring) : bool :=
  bool_decide (name ∈ names).

(** [arr.some(p)] *)
Definition some {A} (p : A → bool) (l : list A) : bool := existsb p l.

(** [\s] of a regular expression, which is also what [trim] strips:
    white space and line terminators. *)
Definition is_space (c : N) : bool :=
  match c with
  | 9 | 10 | 11 | 12 | 13 | 32 | 160 | 5760 | 8232 | 8233 | 8239 | 8287
  | 12288 | 65279 => true
  | _ => ((8192 <=? c) && (c <=? 8202))%N
  end%N.

Fixpoint take_until_space (s : jsstring) : jsstring :=
  match s with
  | [] => []
  | c :: s' => if is_space c then [] else c :: take_until_space s'
  end.

Fixpoint drop_spaces (s : jsstring) : jsstring :=
  match s with
  | [] => []
  | c :: s' => if is_space c then drop_spaces s' else s
  end.

(** [s.split(/\s+/)[0]]: what stands before the first run of white space. *)
Definition split_spaces_first (s : jsstring) : jsstring := take_until_space s.

(** [s.trim()] *)
Definition trim (s : jsstring) : jsstring :=
  rev (drop_spaces (rev (drop_spaces s))).

(** [s.replace(/^--?/, '')]: one leading dash, or two, removed. *)
Definition strip_dashes (s : jsstring) : jsstring :=
  match s with
  | 45%N :: 45%N :: s' => s'
  | 45%N :: s' => s'
  | _ => s
  end.

End JS.

Import JS.

(** ** The orchestrator's calls into user code *)

Module Exec.

Inductive event (Exn : Type) :=
| PluginBefore (plugin : jsstring)
| PluginAfter (plugin : jsstring)
| CommandBefore
| CommandExecute
| CommandAfter
| CommandOnError (e : thrown Exn).
Arguments PluginBefore {Exn} plugin.
Arguments PluginAfter {Exn} plugin.
Arguments CommandBefore {Exn}.
Arguments CommandExecute {Exn}.
Arguments CommandAfter {Exn}.
Arguments CommandOnError {Exn} e.

Record state (W Exn : Type) := State { world : W; calls : list (event Exn) }.
Arguments State {W Exn} world calls.
Arguments world {W Exn} s.
Arguments calls {W Exn} s.

Definition M (W Exn A : Type) := state W Exn → state W Exn * completion Exn A.

#[global] Instance M_ret {W Exn} : MRet (M W Exn) := λ A a s, (s, Normal a).

#[global] Instance M_bind {W Exn} : MBind (M W Exn) :=
  λ A B k m s, match m s with
               | (s', Normal a) => k a s'
               | (s', Throw e) => (s', Throw e)
               end.

Definition throw {W Exn A} (e : thrown Exn) : M W Exn A := λ s, (s, Throw e).

(** Reading something of the world, as it is now. *)
Definition read {W Exn A} (f : W → A) : M W Exn A := λ s, (s, Normal (f (world s))).

(** [try { m } catch (error) { h error }] *)
Definition try_catch {W Exn A} (m : M W Exn A) (h : thrown Exn → M W Exn A)
  : M W Exn A :=
  λ s, match m s with
       | (s', Normal a) => (s', Normal a)
       | (s', Throw e) => h e s'
       end.

(** A call into user code, recorded. *)
Definition call {W Exn A} (ev : event Exn) (f : user W Exn A) : M W Exn A :=
  λ s, let (w', r) := f (world s) in (State w' (calls s ++ [ev]), r).

(** [hook?.(context)] *)
Definition call_opt {W Exn C} (ev : event Exn) (hook : option (C → user W Exn unit))
    (context : C) : M W Exn unit :=
  match hook with
  | Some h => call ev (h context)
  | None => mret tt
  end.

(** [l.forEach(f)] *)
Fixpoint forEach {W Exn A} (f : A → M W Exn unit) (l : list A) : M W Exn unit :=
  match l with
  | [] => mret tt
  | x :: l' => f x ;; forEach f l'
  end.

End Exec.

Import Exec.


(** ** The parser's record of option values

    [command.opts()] answers with one object, the same at every call.  It
    is part of the world, and is known here by what reading it gives:
    whoever holds the object can write to it, which changes the world. *)

Definition OptionValues (W : Type) := W → gmap jsstring value.

(** ** [src/command.ts]: option specs, command metadata, context *)

Module CommandOption.
Record t := {
  flag : jsstring;
  abbreviation : option jsstring;
  description : option jsstring;
  defaultValue : option value;
  required : option bool
}.
End CommandOption.

Module CommandArgs.
Record t := {
  name : jsstring;
  aliases : option (list jsstring);
  plugins : option (list jsstring);
  group : option jsstring;
  description : option jsstring;
  examples : option (list jsstring);
  options : list CommandOption.t;
  validate : option (gmap jsstring value → option jsstring)
}.
End CommandArgs.

(** The context holds the object of option values itself, not a copy. *)
Module CommandContext.
Record t (W : Type) := {
  name : jsstring;
  options : OptionValues W;
  args : list value;
  startTime : Z
}.
Arguments name {W} _.
Arguments options {W} _.
Arguments args {W} _.
Arguments startTime {W} _.
End CommandContext.

(** ** [src/plugin.ts] *)

Module BasePlugin.

(** A plugin class: its static [name] and [force], how its constructor
    ends, and what its prototype has for [priority] and the two optional
    hooks.  The constructor and the getter of [priority] are the class's own
    code: each returns or throws; what they do to the world is not followed. *)
Record class (W Exn : Type) := {
  static_name : jsstring;
  force : bool;
  proto_constructor : completion Exn unit;
  get_priority : completion Exn number;
  proto_beforeExecute : option (CommandContext.t W → user W Exn unit);
  proto_afterExecute : option (CommandContext.t W → user W Exn unit)
}.
Arguments static_name {W Exn} c.
Arguments force {W Exn} c.
Arguments proto_constructor {W Exn} c.
Arguments get_priority {W Exn} c.
Arguments proto_beforeExecute {W Exn} c.
Arguments proto_afterExecute {W Exn} c.

(** An instance: it has no fields of its own. *)
Record t (W Exn : Type) := new { constructor : class W Exn }.
Arguments new {W Exn} constructor.
Arguments constructor {W Exn} _.

Section Getters.
Context {W Exn : Type}.

(** [new plugin()]: the constructor runs. *)
Definition construct (plugin : class W Exn) : completion Exn (t W Exn) :=
  match proto_constructor plugin with
  | Normal _ => Normal (new plugin)
  | Throw e => Throw e
  end.

(** [Object.getPrototypeOf(this)?.constructor?.name ?? ''] *)
Definition name (this : t W Exn) : jsstring := static_name (constructor this).

(** [this.priority]: the getter runs. *)
Definition priority (this : t W Exn) : completion Exn number :=
  get_priority (constructor this).

Definition beforeExecute (this : t W Exn) := proto_beforeExecute (constructor this).

Definition afterExecute (this : t W Exn) := proto_afterExecute (constructor this).

End Getters.

End BasePlugin.

(** ** [src/command.ts]: [BaseCommand] *)

Module BaseCommand.

(** A command class.  [execute] reads the option values of its parser
    handle, [this.command.opts()]; it is given that object here. *)
Record class (W Exn : Type) := {
  static_name : jsstring;
  force : bool;
  get_args : CommandArgs.t;
  proto_beforeExecute : option (CommandContext.t W → user W Exn unit);
  proto_execute : OptionValues W → user W Exn unit;
  proto_afterExecute : option (CommandContext.t W → user W Exn unit);
  proto_onError : thrown Exn → CommandContext.t W → user W Exn bool
}.
Arguments static_name {W Exn} c.
Arguments force {W Exn} c.
Arguments get_args {W Exn} c.
Arguments proto_beforeExecute {W Exn} c.
Arguments proto_execute {W Exn} c.
Arguments proto_afterExecute {W Exn} c.
Arguments proto_onError {W Exn} c.

(** An instance, [new item.command(command, plugins)].  The parser handle
    [command] is the external parser's; what the model keeps of it is its
    object of option values, [command.opts()], which the action is given. *)
Record t (W Exn : Type) := new {
  constructor : class W Exn;
  plugins : list (BasePlugin.t W Exn)
}.
Arguments new {W Exn} constructor plugins.
Arguments constructor {W Exn} _.
Arguments plugins {W Exn} _.

(** [选项 ${flag} 是必填的] *)
Definition required_message (flag : jsstring) : jsstring :=
  [36873; 39033; 32]%N ++ flag ++ [32; 26159; 24517; 22635; 30340]%N.

(** [extractOptionName]: [flag.replace(/^--?/, '').split(/\s+/)[0].trim()] *)
Definition extractOptionName (flag : jsstring) : jsstring :=
  trim (split_spaces_first (strip_dashes flag)).

(** The test of [validateOptions] on one option spec: it is required and
    [options[optionName] == null]. *)
Definition missing (options : gmap jsstring value) (option : CommandOption.t) : bool :=
  truthy_flag (CommandOption.required option)
  && eq_null (get options (extractOptionName (CommandOption.flag option))).

(** The loop of [validateOptions] over the option specs. *)
Fixpoint checkRequired (optionDefs : list CommandOption.t)
    (options : gmap jsstring value) : option jsstring :=
  match optionDefs with
  | [] => None
  | option :: rest =>
      if missing options option
      then Some (required_message (CommandOption.flag option))
      else checkRequired rest options
  end.

Section Methods.
Context {W Exn : Type}.

Definition args (this : t W Exn) : CommandArgs.t := get_args (constructor this).

(** [Object.getPrototypeOf(this)?.constructor?.name ?? this.args.name] *)
Definition name (this : t W Exn) : jsstring := static_name (constructor this).

Definition beforeExecute (this : t W Exn) := proto_beforeExecute (constructor this).

Definition execute (this : t W Exn) := proto_execute (constructor this).

Definition afterExecute (this : t W Exn) := proto_afterExecute (constructor this).

Definition onError (this : t W Exn) := proto_onError (constructor this).

(** The [onError] a class inherits when it does not override it: it writes
    the error to the console and answers [false]. *)
Definition base_onError (console_error : jsstring → thrown Exn → W → W)
  : thrown Exn → CommandContext.t W → user W Exn bool :=
  λ error context w, (console_error (CommandContext.name context) error w, Normal false).

Definition getPlugins (this : t W Exn) : list (BasePlugin.t W Exn) :=
  let names := default [] (CommandArgs.plugins (args this)) in
  List.filter (λ p, includes names (BasePlugin.name p)) (plugins this).

Definition validateOptions (this : t W Exn) (options : gmap jsstring value)
  : option jsstring :=
  match checkRequired (CommandArgs.options (args this)) options with
  | Some message => Some message
  | None =>
      match CommandArgs.validate (args this) with
      | Some validate => validate options
      | None => None
      end
  end.

(** The four steps of the [try] block of the action.  [options] is the
    object [this.command.opts()]; the validation reads what it holds when
    the before-hooks are through. *)
Definition beforeHooks (this : t W Exn) (plugins : list (BasePlugin.t W Exn))
    (context : CommandContext.t W) : M W Exn unit :=
  forEach (λ plugin, call_opt (PluginBefore (BasePlugin.name plugin))
                       (BasePlugin.beforeExecute plugin) context) plugins ;;
  call_opt CommandBefore (beforeExecute this) context.

Definition validation (this : t W Exn) (options : OptionValues W)
  : M W Exn unit :=
  held ← read options ;
  let validationError := validateOptions this held in
  if truthy_string validationError
  then throw (Error (default [] validationError))
  else mret tt.

Definition body (this : t W Exn) (options : OptionValues W) : M W Exn unit :=
  call CommandExecute (execute this options).

Definition afterHooks (this : t W Exn) (plugins : list (BasePlugin.t W Exn))
    (context : CommandContext.t W) : M W Exn unit :=
  call_opt CommandAfter (afterExecute this) context ;;
  forEach (λ plugin, call_opt (PluginAfter (BasePlugin.name plugin))
                       (BasePlugin.afterExecute plugin) context) plugins.

(** The [try] block of the action. *)
Definition guarded (this : t W Exn) (options : OptionValues W)
    (context : CommandContext.t W) : M W Exn unit :=
  let plugins := getPlugins this in
  beforeHooks this plugins context ;;
  validation this options ;;
  body this options ;;
  afterHooks this plugins context.

(** The [catch] block of the action. *)
Definition handler (this : t W Exn) (context : CommandContext.t W)
    (error : thrown Exn) : M W Exn unit :=
  handled ← call (CommandOnError error) (onError this error context) ;
  if negb handled then throw error else mret tt.

(** The context of one invocation: [options] is [this.command.opts()],
    [args] what the parser passes to the callback (the positional
    arguments, then one last argument that is dropped), [now] is
    [Date.now()]. *)
Definition context_of (this : t W Exn) (options : OptionValues W)
    (args : list value) (now : Z) : CommandContext.t W :=
  let commandArgs := removelast args in
  {| CommandContext.name := name this;
     CommandContext.options := options;
     CommandContext.args := commandArgs;
     CommandContext.startTime := now |}.

(** The callback [setupAction] registers. *)
Definition action (this : t W Exn) (options : OptionValues W)
    (args : list value) (now : Z) : M W Exn unit :=
  let context := context_of this options args now in
  try_catch (guarded this options context) (handler this context).

(** The calls a list of optional hooks amounts to: one for each element
    that has the hook, in the order of the list. *)
Definition hook_calls {A C} (ev : A → event Exn)
    (hook : A → option (C → user W Exn unit)) (l : list A) : list (event Exn) :=
  flat_map (λ x, match hook x with Some _ => [ev x] | None => [] end) l.

(** The calls of the before-hooks and of the after-hooks of a command, as
    the comments of [setupAction] lay them out. *)
Definition before_calls (this : t W Exn) : list (event Exn) :=
  hook_calls (λ p, PluginBefore (BasePlugin.name p)) BasePlugin.beforeExecute
    (getPlugins this)
  ++ match beforeExecute this with Some _ => [CommandBefore] | None => [] end.

Definition after_calls (this : t W Exn) : list (event Exn) :=
  match afterExecute this with Some _ => [CommandAfter] | None => [] end
  ++ hook_calls (λ p, PluginAfter (BasePlugin.name p)) BasePlugin.afterExecute
       (getPlugins this).

End Methods.

End BaseCommand.

(** ** [src/program.ts]: the registry *)

Module PluginType.
Record t (W Exn : Type) := {
  name : jsstring;
  priority : number;
  plugin : BasePlugin.class W Exn;
  instance : option (BasePlugin.t W Exn)
}.
Arguments name {W Exn} _.
Arguments priority {W Exn} _.
Arguments plugin {W Exn} _.
Arguments instance {W Exn} _.
End PluginType.

Module CommandType.
Record t (W Exn : Type) := {
  name : jsstring;
  command : BaseCommand.class W Exn;
  instance : option (BaseCommand.t W Exn);
  group : option jsstring
}.
Arguments name {W Exn} _.
Arguments command {W Exn} _.
Arguments instance {W Exn} _.
Arguments group {W Exn} _.
End CommandType.

Module CommandProgram.

(** [programShape].  Its third field, the parser, is the external
    collaborator; the [Map] of commands is read by key only. *)
Record programShape (W Exn : Type) := {
  plugins : list (PluginType.t W Exn);
  commands : gmap jsstring (CommandType.t W Exn)
}.
Arguments plugins {W Exn} _.
Arguments commands {W Exn} _.

Definition DEFAULT_GROUP : jsstring := lit "default".

Section Registry.
Context {W Exn : Type}.

(** The state [programShape] is created with. *)
Definition initial : programShape W Exn := {| plugins := []; commands := ∅ |}.

Definition plugin_exists_message (name : jsstring) : jsstring :=
  lit "Plugin '" ++ name ++ lit "' already exists.".

Definition command_exists_message (name : jsstring) : jsstring :=
  lit "Command '" ++ name ++ lit "' already exists.".

(** The entry [install] pushes: the class is instantiated, then the
    priority of the instance is read; either can throw. *)
Definition entry (plugin : BasePlugin.class W Exn)
  : completion Exn (PluginType.t W Exn) :=
  match BasePlugin.construct plugin with
  | Throw e => Throw e
  | Normal instance =>
      match BasePlugin.priority instance with
      | Throw e => Throw e
      | Normal priority =>
          Normal {| PluginType.name := BasePlugin.static_name plugin;
                    PluginType.plugin := plugin;
                    PluginType.priority := priority;
                    PluginType.instance := Some instance |}
      end
  end.

(** [(a, b) => a.priority - b.priority] *)
Definition by_priority (a b : PluginType.t W Exn) : number :=
  sub (PluginType.priority a) (PluginType.priority b).

Definition install (plugin : BasePlugin.class W Exn) (force : bool)
    (shape : programShape W Exn) : completion Exn (programShape W Exn) :=
  let plugins := plugins shape in
  let name := BasePlugin.static_name plugin in
  if some (λ p, bool_decide (PluginType.name p = name)) plugins && negb force
  then Throw (Error (plugin_exists_message name))
  else match entry plugin with
       | Throw e => Throw e
       | Normal item =>
           Normal {| plugins := sort by_priority (plugins ++ [item]);
                     commands := commands shape |}
       end.

Definition use (command : BaseCommand.class W Exn) (force : bool)
    (shape : programShape W Exn) : completion Exn (programShape W Exn) :=
  let commands := commands shape in
  let name := BaseCommand.static_name command in
  if bool_decide (is_Some (commands !! name)) && negb force
  then Throw (Error (command_exists_message name))
  else Normal {| plugins := plugins shape;
                 commands := <[name := {| CommandType.name := name;
                                           CommandType.command := command;
                                           CommandType.instance := None;
                                           CommandType.group := None |}]> commands |}.

(** [reset()], without [autoRun]. *)
Definition reset (shape : programShape W Exn) : programShape W Exn :=
  {| plugins := []; commands := ∅ |}.

Definition setupCommand (plugins : list (BasePlugin.t W Exn))
    (item : CommandType.t W Exn) : CommandType.t W Exn :=
  let instance := BaseCommand.new (CommandType.command item) plugins in
  {| CommandType.name := CommandType.name item;
     CommandType.command := CommandType.command item;
     CommandType.group :=
       Some (default DEFAULT_GROUP (CommandArgs.group (BaseCommand.args instance)));
     CommandType.instance := Some instance |}.

(** [run()], up to the call of the parser: every command that has no
    instance yet gets one, built over the instances of the plugins that are
    installed now. *)
Definition run (shape : programShape W Exn) : programShape W Exn :=
  let plugins := omap PluginType.instance (plugins shape) in
  {| plugins := CommandProgram.plugins shape;
     commands := (λ item, match CommandType.instance item with
                          | Some _ => item
                          | None => setupCommand plugins item
                          end) <$> commands shape |}.

(** What the parser does when it selects the sub-command [name]: it calls
    the action its instance registered; [options] is the object of option
    values of that sub-command. *)
Definition dispatch (shape : programShape W Exn) (name : jsstring)
    (options : OptionValues W) (args : list value) (now : Z) : M W Exn unit :=
  match commands shape !! name ≫= CommandType.instance with
  | Some this => BaseCommand.action this options args now
  | None => mret tt
  end.

(** A registration call, and what a sequence of them leaves behind; a call
    that throws leaves the registry as it was. *)
Inductive registration :=
| CallInstall (plugin : BasePlugin.class W Exn) (force : bool)
| CallUse (command : BaseCommand.class W Exn) (force : bool)
| CallReset.

Definition unchanged_on_throw (shape : programShape W Exn)
    (r : completion Exn (programShape W Exn)) : programShape W Exn :=
  match r with
  | Normal shape' => shape'
  | Throw _ => shape
  end.

Definition step (shape : programShape W Exn) (c : registration) : programShape W Exn :=
  match c with
  | CallInstall plugin force => unchanged_on_throw shape (install plugin force shape)
  | CallUse command force => unchanged_on_throw shape (use command force shape)
  | CallReset => reset shape
  end.

Definition after (calls : list registration) : programShape W Exn := foldl step initial calls.

(** The entries a sequence of calls has pushed, in the order of the calls,
    since the last [reset]. *)
Definition pushed_by (shape : programShape W Exn) (c : registration)
  : list (PluginType.t W Exn) :=
  match c with
  | CallInstall plugin force =>
      match install plugin force shape, entry plugin with
      | Normal _, Normal item => [item]
      | _, _ => []
      end
  | _ => []
  end.

Fixpoint pushed_from (shape : programShape W Exn) (acc : list (PluginType.t W Exn))
    (calls : list registration) : list (PluginType.t W Exn) :=
  match calls with
  | [] => acc
  | c :: calls' =>
      pushed_from (step shape c)
        (match c with CallReset => [] | _ => acc ++ pushed_by shape c end) calls'
  end.

Definition pushed (calls : list registration) : list (PluginType.t W Exn) :=
  pushed_from initial [] calls.

End Registry.

End CommandProgram.

(** ** [src/cli.ts]: the two loaders *)

Module Cli.

(** What a module file exports by default, as [isPlugin] and [isCommand]
    tell it apart: a class that extends [BasePlugin], one that extends
    [BaseCommand], or anything else. *)
Inductive exported (W Exn : Type) :=
| PluginClass (c : BasePlugin.class W Exn)
| CommandClass (c : BaseCommand.class W Exn)
| Other.
Arguments PluginClass {W Exn} c.
Arguments CommandClass {W Exn} c.
Arguments Other {W Exn}.

(** A loaded module; [default_] is absent when the export is missing or
    falsy, and [file.default || file] is then the module object itself. *)
Record file (W Exn : Type) := { default_ : option (exported W Exn) }.
Arguments default_ {W Exn} _.

Inductive log (Exn : Type) :=
| Warn (fn : jsstring) (error : thrown Exn)
| Err (fn : jsstring) (error : thrown Exn).
Arguments Warn {Exn} fn error.
Arguments Err {Exn} fn error.

(** What the loaders act on: the registry and the console. *)
Record process (W Exn : Type) := {
  shape : CommandProgram.programShape W Exn;
  console : list (log Exn)
}.
Arguments shape {W Exn} _.
Arguments console {W Exn} _.

Inductive kind := cmd | plugin.

(** [fn.endsWith(suffix)] *)
Definition endsWith (fn sfx : jsstring) : bool := bool_decide (sfx `suffix_of` fn).

Section Loaders.
Context {W Exn : Type}.
(** The collaborators: the path library ([getName] is built from it), and
    the dynamic [import()] of a file, which gives a module or fails. *)
Variable resolve : jsstring → jsstring.
Variable getName : jsstring → kind → jsstring.
Variable import : jsstring → completion Exn (file W Exn).

Definition default_or_file (f : file W Exn) : exported W Exn :=
  default Other (default_ f).

Definition named_plugin (fn : jsstring) (c : BasePlugin.class W Exn)
  : BasePlugin.class W Exn :=
  match BasePlugin.static_name c with
  | [] => {| BasePlugin.static_name := getName fn plugin;
             BasePlugin.force := BasePlugin.force c;
             BasePlugin.proto_constructor := BasePlugin.proto_constructor c;
             BasePlugin.get_priority := BasePlugin.get_priority c;
             BasePlugin.proto_beforeExecute := BasePlugin.proto_beforeExecute c;
             BasePlugin.proto_afterExecute := BasePlugin.proto_afterExecute c |}
  | _ => c
  end.

Definition named_command (fn : jsstring) (c : BaseCommand.class W Exn)
  : BaseCommand.class W Exn :=
  match BaseCommand.static_name c with
  | [] => {| BaseCommand.static_name := getName fn cmd;
             BaseCommand.force := BaseCommand.force c;
             BaseCommand.get_args := BaseCommand.get_args c;
             BaseCommand.proto_beforeExecute := BaseCommand.proto_beforeExecute c;
             BaseCommand.proto_execute := BaseCommand.proto_execute c;
             BaseCommand.proto_afterExecute := BaseCommand.proto_afterExecute c;
             BaseCommand.proto_onError := BaseCommand.proto_onError c |}
  | _ => c
  end.

(** The [try] block of [loadPlugin]. *)
Definition loadPlugin_body (fn : jsstring) (p : process W Exn)
  : process W Exn * completion Exn unit :=
  match import (resolve fn) with
  | Throw e => (p, Throw e)
  | Normal f =>
      match default_or_file f with
      | PluginClass c =>
          let c := named_plugin fn c in
          match CommandProgram.install c (BasePlugin.force c) (shape p) with
          | Normal shape' => ({| shape := shape'; console := console p |}, Normal tt)
          | Throw e => (p, Throw e)
          end
      | _ => (p, Normal tt)
      end
  end.

Definition loadPlugin (fn : jsstring) (p : process W Exn)
  : process W Exn * completion Exn unit :=
  match loadPlugin_body fn p with
  | (p', Normal _) => (p', Normal tt)
  | (p', Throw error) =>
      ({| shape := shape p'; console := console p' ++ [Warn fn error] |}, Normal tt)
  end.

(** The [try] block of [loadCommand]. *)
Definition loadCommand_body (fn : jsstring) (p : process W Exn)
  : process W Exn * completion Exn unit :=
  match import (resolve fn) with
  | Throw e => (p, Throw e)
  | Normal f =>
      match default_or_file f with
      | CommandClass c =>
          let c := named_command fn c in
          match CommandProgram.use c (BaseCommand.force c) (shape p) with
          | Normal shape' => ({| shape := shape'; console := console p |}, Normal tt)
          | Throw e => (p, Throw e)
          end
      | _ => (p, Normal tt)
      end
  end.

Definition loadCommand (fn : jsstring) (p : process W Exn)
  : process W Exn * completion Exn unit :=
  match loadCommand_body fn p with
  | (p', Normal _) => (p', Normal tt)
  | (p', Throw error) =>
      ({| shape := shape p'; console := console p' ++ [Err fn error] |}, Throw error)
  end.

(** The two lists of promises [runjShow] collects. *)
Record promises := {
  pluginPromises : list (completion Exn unit);
  commandPromises : list (completion Exn unit)
}.

(** The callback [runjShow] hands to the directory walk.  Every loader runs
    to its end, here at once, and its promise is pushed.  (The code starts
    the loaders and does not wait for them: they register in the order in
    which their imports finish, which is here the order of the walk.) *)
Definition visit (fn : jsstring) (st : process W Exn * promises)
  : process W Exn * promises :=
  let (p, ps) := st in
  if endsWith fn (lit ".plugin.ts") || endsWith fn (lit ".plugin.js")
  then let (p', r) := loadPlugin fn p in
       (p', {| pluginPromises := pluginPromises ps ++ [r];
               commandPromises := commandPromises ps |})
  else if endsWith fn (lit ".cmd.ts") || endsWith fn (lit ".cmd.js")
  then let (p', r) := loadCommand fn p in
       (p', {| pluginPromises := pluginPromises ps;
               commandPromises := commandPromises ps ++ [r] |})
  else st.

(** The discovery phase over the files the walk visits, in its order. *)
Definition discover (files : list jsstring) (p : process W Exn)
  : process W Exn * promises :=
  foldl (λ st fn, visit fn st) (p, {| pluginPromises := []; commandPromises := [] |}) files.

(** [await Promise.all(promises)]: it fails when one of them does. *)
Fixpoint all (promises : list (completion Exn unit)) : completion Exn unit :=
  match promises with
  | [] => Normal tt
  | Normal _ :: rest => all rest
  | Throw e :: _ => Throw e
  end.

(** [runjShow], up to the call [initBuiltIn(CommandProgram).run()]: the
    completion is that of the discovery phase, and the last component tells
    whether the call is reached.  What the call then does ([BuiltIn.initBuiltIn]
    and [CommandProgram.run]) is not part of this function; it can still
    throw. *)
Definition runjShow (files : list jsstring) (p : process W Exn)
  : process W Exn * completion Exn unit * bool :=
  let (p', ps) := discover files p in
  match all (pluginPromises ps ++ commandPromises ps) with
  | Normal _ => (p', Normal tt, true)
  | Throw e => (p', Throw e, false)
  end.

End Loaders.

End Cli.

(** ** The classes of [examples/] and of the tests *)

Module Examples.

(** The world of the examples is the console, one line per entry, and the
    option values of the one sub-command that is invoked; nothing but
    [new Error] is thrown, except by [failing] below. *)
Record W := { console : list jsstring; values : gmap jsstring value }.
Definition Exn := unit.

(** [this.command.opts()] *)
Definition opts : OptionValues W := values.

Definition log (line : jsstring) : user W Exn unit :=
  λ w, ({| console := console w ++ [line]; values := values w |}, Normal tt).


(** [examples/logger.plugin.ts] *)
Definition logger : BasePlugin.class W Exn :=
  {| BasePlugin.static_name := lit "logger";
     BasePlugin.force := false;
     BasePlugin.proto_constructor := Normal tt;
     BasePlugin.get_priority := Normal (Num 50);
     BasePlugin.proto_beforeExecute :=
       Some (λ context, log (lit "[Logger] start: " ++ CommandContext.name context));
     BasePlugin.proto_afterExecute :=
       Some (λ context, log (lit "[Logger] done: " ++ CommandContext.name context)) |}.

(** [examples/timer.plugin.ts] *)
Definition timer : BasePlugin.class W Exn :=
  {| BasePlugin.static_name := lit "timer";
     BasePlugin.force := false;
     BasePlugin.proto_constructor := Normal tt;
     BasePlugin.get_priority := Normal (Num 100);
     BasePlugin.proto_beforeExecute := Some (λ context w, (w, Normal tt));
     BasePlugin.proto_afterExecute := Some (λ context, log (lit "[Timer] elapsed")) |}.

(** [examples/error-handler.plugin.ts] *)
Definition errorHandler : BasePlugin.class W Exn :=
  {| BasePlugin.static_name := lit "error-handler";
     BasePlugin.force := false;
     BasePlugin.proto_constructor := Normal tt;
     BasePlugin.get_priority := Normal (Num 200);
     BasePlugin.proto_beforeExecute :=
       Some (λ context, log (lit "[ErrorHandler] start: " ++ CommandContext.name context));
     BasePlugin.proto_afterExecute :=
       Some (λ context, log (lit "[ErrorHandler] done: " ++ CommandContext.name context)) |}.

(** [构建模式必须是 development 或 production] *)
Definition build_mode_message : jsstring :=
  [26500; 24314; 27169; 24335; 24517; 39035; 26159]%N
  ++ lit " development " ++ [25110]%N ++ lit " production".

Definition flag_option (flag : string) (abbreviation : string)
    (defaultValue : option value) (required : option bool) : CommandOption.t :=
  {| CommandOption.flag := lit flag;
     CommandOption.abbreviation := Some (lit abbreviation);
     CommandOption.description := None;
     CommandOption.defaultValue := defaultValue;
     CommandOption.required := required |}.

(** [examples/build.cmd.ts] *)
Definition build : BaseCommand.class W Exn :=
  {| BaseCommand.static_name := lit "build";
     BaseCommand.force := false;
     BaseCommand.get_args :=
       {| CommandArgs.name := lit "build";
          CommandArgs.description := None;
          CommandArgs.aliases := Some [lit "b"];
          CommandArgs.plugins := Some [lit "logger"; lit "timer"];
          CommandArgs.group := Some (lit "build");
          CommandArgs.options :=
            [ flag_option "--watch" "-w" (Some (Bool false)) (Some false);
              flag_option "--mode <mode>" "-m" (Some (Str (lit "production"))) (Some false);
              flag_option "--output <dir>" "-o" (Some (Str (lit "./dist"))) (Some false) ];
          CommandArgs.examples := None;
          CommandArgs.validate :=
            Some (λ options,
                    let mode := get options (lit "mode") in
                    if truthy mode
                       && negb (bool_decide (mode ∈ [Str (lit "development");
                                                     Str (lit "production")]))
                    then Some build_mode_message
                    else None) |};
     BaseCommand.proto_onError :=
       λ error context w, ((log (lit "build failed") w).1, Normal true);
     BaseCommand.proto_beforeExecute := Some (λ context, log (lit "build: start"));
     BaseCommand.proto_execute := λ options, log (lit "build: building");
     BaseCommand.proto_afterExecute := Some (λ context, log (lit "build: done")) |}.

(** [console.error] of the examples' world. *)
Definition console_error (name : jsstring) (error : thrown Exn) : W → W :=
  λ w, (log (lit "error in " ++ name) w).1.

(** [名称不能为 invalid] *)
Definition invalid_name_message : jsstring :=
  [21517; 31216; 19981; 33021; 20026]%N ++ lit " invalid".

(** [TestCommand] of the tests of [BaseCommand]: it requires [--name] and
    inherits [onError]. *)
Definition test : BaseCommand.class W Exn :=
  {| BaseCommand.static_name := lit "test";
     BaseCommand.force := false;
     BaseCommand.get_args :=
       {| CommandArgs.name := lit "test";
          CommandArgs.description := None;
          CommandArgs.aliases := Some [lit "t"];
          CommandArgs.plugins := None;
          CommandArgs.group := Some (lit "test");
          CommandArgs.options :=
            [ flag_option "--name <value>" "-n" None (Some true);
              flag_option "--verbose" "-v" None None ];
          CommandArgs.examples := Some [lit "jshow test --name hello"];
          CommandArgs.validate :=
            Some (λ options,
                    if bool_decide (get options (lit "name") = Str (lit "invalid"))
                    then Some invalid_name_message
                    else None) |};
     BaseCommand.proto_onError := BaseCommand.base_onError console_error;
     BaseCommand.proto_beforeExecute := None;
     BaseCommand.proto_execute := λ options, log (lit "test: run");
     BaseCommand.proto_afterExecute := None |}.

(** A plugin whose [beforeExecute] throws, and [TestCommand] opting into it. *)
Definition failing : BasePlugin.class W Exn :=
  {| BasePlugin.static_name := lit "failing";
     BasePlugin.force := false;
     BasePlugin.proto_constructor := Normal tt;
     BasePlugin.get_priority := Normal (Num 100);
     BasePlugin.proto_beforeExecute := Some (λ context w, (w, Throw (Raised tt)));
     BasePlugin.proto_afterExecute := None |}.

Definition test_with (plugins : list jsstring) : BaseCommand.class W Exn :=
  {| BaseCommand.static_name := lit "test";
     BaseCommand.force := false;
     BaseCommand.get_args :=
       {| CommandArgs.name := lit "test";
          CommandArgs.description := None;
          CommandArgs.aliases := None;
          CommandArgs.plugins := Some plugins;
          CommandArgs.group := None;
          CommandArgs.options := CommandArgs.options (BaseCommand.get_args test);
          CommandArgs.examples := None;
          CommandArgs.validate := CommandArgs.validate (BaseCommand.get_args test) |};
     BaseCommand.proto_onError := BaseCommand.base_onError console_error;
     BaseCommand.proto_beforeExecute := None;
     BaseCommand.proto_execute := λ options, log (lit "test: run");
     BaseCommand.proto_afterExecute := None |}.

(** The registry after the program has installed and registered a list of
    classes and [run()] has bound the commands. *)
Definition installed (plugins : list (BasePlugin.class W Exn))
    (commands : list (BaseCommand.class W Exn)) : CommandProgram.programShape W Exn :=
  CommandProgram.run
    (CommandProgram.after
       (List.map (λ p, CommandProgram.CallInstall p (BasePlugin.force p)) plugins
        ++ List.map (λ c, CommandProgram.CallUse c (BaseCommand.force c)) commands)).

(** The state in which the parser calls an action: the console is empty
    and the command line has been parsed to [options]. *)
Definition parsed (options : gmap jsstring value) : state W Exn :=
  State {| console := []; values := options |} [].

(** The calls one invocation makes, and how it ends. *)
Definition calls_of (options : gmap jsstring value) (m : M W Exn unit)
  : list (event Exn) :=
  calls (m (parsed options)).1.

Definition outcome_of (options : gmap jsstring value) (m : M W Exn unit)
  : completion Exn unit :=
  (m (parsed options)).2.

End Examples.

(** ** The scenario of the examples, for any hooks

    [logger] with priority 50 and [timer] with priority 100, each with both
    hooks, installed in one order or the other before a command is
    registered and the program is run. *)

Module Scenario.

Section Classes.
Context {W Exn : Type}.
Variables (fl ft : bool).
Variables (logger_before logger_after timer_before timer_after
           : CommandContext.t W → user W Exn unit).

Definition logger50 : BasePlugin.class W Exn :=
  {| BasePlugin.static_name := lit "logger";
     BasePlugin.force := fl;
     BasePlugin.proto_constructor := Normal tt;
     BasePlugin.get_priority := Normal (Num 50);
     BasePlugin.proto_beforeExecute := Some logger_before;
     BasePlugin.proto_afterExecute := Some logger_after |}.

Definition timer100 : BasePlugin.class W Exn :=
  {| BasePlugin.static_name := lit "timer";
     BasePlugin.force := ft;
     BasePlugin.proto_constructor := Normal tt;
     BasePlugin.get_priority := Normal (Num 100);
     BasePlugin.proto_beforeExecute := Some timer_before;
     BasePlugin.proto_afterExecute := Some timer_after |}.

(** The two plugins installed, in one order or the other, then the command
    registered, then [run()]. *)
Definition scenario (timer_first : bool) (command : BaseCommand.class W Exn)
  : CommandProgram.programShape W Exn :=
  CommandProgram.run
    (CommandProgram.after
       ((if timer_first
         then [CommandProgram.CallInstall timer100 ft;
               CommandProgram.CallInstall logger50 fl]
         else [CommandProgram.CallInstall logger50 fl;
               CommandProgram.CallInstall timer100 ft])
        ++ [CommandProgram.CallUse command (BaseCommand.force command)])).

End Classes.

End Scenario.

(** ** More of the code: strings *)

Module JSText.

(** [s.replace(pattern, replacement)] for a string pattern: the first
    occurrence, if there is one, is replaced. *)
Fixpoint replace_first (pattern replacement s : jsstring) : jsstring :=
  match s with
  | [] => if bool_decide (pattern = []) then replacement else []
  | c :: s' =>
      if bool_decide (pattern `prefix_of` s)
      then replacement ++ drop (length pattern) s
      else c :: replace_first pattern replacement s'
  end.

(** [parts.join(separator)] *)
Fixpoint join (separator : jsstring) (parts : list jsstring) : jsstring :=
  match parts with
  | [] => []
  | [part] => part
  | part :: rest => part ++ separator ++ join separator rest
  end.

End JSText.

(** ** [src/command.ts]: [init], as the calls it makes on the parser handle *)

Module CommandInit.

(** The methods of the parser's sub-command that [init] calls. *)
Inductive parser_call :=
| description (text : jsstring)
| aliases (names : list jsstring)
| requiredOption (flags text : jsstring) (defaultValue : option value)
| option_ (flags text : jsstring) (defaultValue : option value)
| addHelpText (position text : jsstring).

(** A string that may be absent is truthy when it is there and not empty. *)
Definition truthy_text (s : option jsstring) : bool := truthy_string s.

(** [option.abbreviation ? `${option.abbreviation}, ${option.flag}` : option.flag] *)
Definition flags_of (option : CommandOption.t) : jsstring :=
  if truthy_text (CommandOption.abbreviation option)
  then default [] (CommandOption.abbreviation option) ++ lit ", "
       ++ CommandOption.flag option
  else CommandOption.flag option.

(** [option.description || ''] *)
Definition text_of (option : CommandOption.t) : jsstring :=
  if truthy_text (CommandOption.description option)
  then default [] (CommandOption.description option)
  else [].

(** The body of the loop over the option specs. *)
Definition register (option : CommandOption.t) : parser_call :=
  if truthy_flag (CommandOption.required option)
  then requiredOption (flags_of option) (text_of option)
         (CommandOption.defaultValue option)
  else option_ (flags_of option) (text_of option)
         (CommandOption.defaultValue option).

(** ['\n示例:\n' + examples.map(ex => `  ${ex}`).join('\n')] *)
Definition examples_text (examples : list jsstring) : jsstring :=
  [10; 31034; 20363; 58; 10]%N
  ++ JSText.join [10%N] (List.map (λ ex, lit "  " ++ ex) examples).

Definition init (args : CommandArgs.t) : list parser_call :=
  (if truthy_text (CommandArgs.description args)
   then [description (default [] (CommandArgs.description args))] else [])
  ++ match CommandArgs.aliases args with
     | Some (name :: names) => [aliases (name :: names)]
     | _ => []
     end
  ++ List.map register (CommandArgs.options args)
  ++ match CommandArgs.examples args with
     | Some (ex :: exs) => [addHelpText (lit "after") (examples_text (ex :: exs))]
     | _ => []
     end.

(** The options a sequence of parser calls has registered: the flags, and
    whether the option was registered as required. *)
Definition registered (c : parser_call) : option (jsstring * bool) :=
  match c with
  | requiredOption flags _ _ => Some (flags, true)
  | option_ flags _ _ => Some (flags, false)
  | _ => None
  end.

End CommandInit.

(** ** Kinds of calls in the trace *)

Module Calls.

Definition is_after {Exn} (ev : event Exn) : bool :=
  match ev with
  | CommandAfter | PluginAfter _ => true
  | _ => false
  end.

Definition is_onError {Exn} (ev : event Exn) : bool :=
  match ev with
  | CommandOnError _ => true
  | _ => false
  end.

End Calls.

(** ** [src/program.ts]: the groups of the help text *)

Module Help.

Section Grouping.
Context {W Exn : Type}.

(** A [Map<string, CommandType[]>], its entries in insertion order. *)
Definition groups := list (jsstring * list (CommandType.t W Exn)).

Definition has (m : groups) (k : jsstring) : bool :=
  existsb (λ e, bool_decide (e.1 = k)) m.

Fixpoint get (m : groups) (k : jsstring) : option (list (CommandType.t W Exn)) :=
  match m with
  | [] => None
  | (k', v) :: m' => if bool_decide (k' = k) then Some v else get m' k
  end.

(** [m.set(k, v)]: a key that is there keeps its place. *)
Fixpoint set (m : groups) (k : jsstring) (v : list (CommandType.t W Exn)) : groups :=
  match m with
  | [] => [(k, v)]
  | (k', v') :: m' =>
      if bool_decide (k' = k) then (k, v) :: m' else (k', v') :: set m' k v
  end.

(** [cmd.group ?? DEFAULT_GROUP] *)
Definition group_of (cmd : CommandType.t W Exn) : jsstring :=
  default CommandProgram.DEFAULT_GROUP (CommandType.group cmd).

(** The body of the [forEach] of [groupCommands]; [push] changes the array
    that the map holds. *)
Definition add (grouped : groups) (cmd : CommandType.t W Exn) : groups :=
  let group := group_of cmd in
  let grouped := if negb (has grouped group) then set grouped group [] else grouped in
  match get grouped group with
  | Some array => set grouped group (array ++ [cmd])
  | None => grouped
  end.

(** [groupCommands], over the values of the command map in the order in
    which [forEach] visits them. *)
Definition groupCommands (commands : list (CommandType.t W Exn)) : groups :=
  foldl add [] commands.

(** The comparison [enhanceHelp] sorts the groups by; [localeCompare] is
    the platform's. *)
Definition by_group (localeCompare : jsstring → jsstring → Z)
    (a b : jsstring * list (CommandType.t W Exn)) : number :=
  if bool_decide (a.1 = CommandProgram.DEFAULT_GROUP) then Num 1
  else if bool_decide (b.1 = CommandProgram.DEFAULT_GROUP) then Num (-1)
  else Num (localeCompare a.1 b.1).

Definition sortedGroups (localeCompare : jsstring → jsstring → Z)
    (grouped : groups) : groups :=
  sort (by_group localeCompare) grouped.

End Grouping.

End Help.

(** ** [src/program.ts]: [initBuiltIn] and [reset(autoRun)] *)

Module BuiltIn.

Section BuiltIn.
Context {W Exn : Type}.
(** The two lists of [./built-in]. *)
Variable BUILT_IN_PLUGINS : list (Cli.exported W Exn).
Variable BUILT_IN_COMMANDS : list (Cli.exported W Exn).

(** [BUILT_IN_PLUGINS.forEach(...)]: what is not a plugin class is passed
    over; the first [install] that throws ends the loop. *)
Fixpoint install_each (l : list (Cli.exported W Exn))
    (shape : CommandProgram.programShape W Exn)
  : CommandProgram.programShape W Exn * completion Exn unit :=
  match l with
  | [] => (shape, Normal tt)
  | Cli.PluginClass plugin :: rest =>
      match CommandProgram.install plugin (BasePlugin.force plugin) shape with
      | Normal shape' => install_each rest shape'
      | Throw e => (shape, Throw e)
      end
  | _ :: rest => install_each rest shape
  end.

Fixpoint use_each (l : list (Cli.exported W Exn))
    (shape : CommandProgram.programShape W Exn)
  : CommandProgram.programShape W Exn * completion Exn unit :=
  match l with
  | [] => (shape, Normal tt)
  | Cli.CommandClass command :: rest =>
      match CommandProgram.use command (BaseCommand.force command) shape with
      | Normal shape' => use_each rest shape'
      | Throw e => (shape, Throw e)
      end
  | _ :: rest => use_each rest shape
  end.

Definition initBuiltIn (shape : CommandProgram.programShape W Exn)
  : CommandProgram.programShape W Exn * completion Exn unit :=
  match install_each BUILT_IN_PLUGINS shape with
  | (shape', Normal _) => use_each BUILT_IN_COMMANDS shape'
  | (shape', Throw e) => (shape', Throw e)
  end.

(** [reset(autoRun)] *)
Definition reset (autoRun : bool) (shape : CommandProgram.programShape W Exn)
  : CommandProgram.programShape W Exn * completion Exn unit :=
  let shape := CommandProgram.reset shape in
  if autoRun
  then match initBuiltIn shape with
       | (shape', Normal _) => (CommandProgram.run shape', Normal tt)
       | (shape', Throw e) => (shape', Throw e)
       end
  else (shape, Normal tt).

End BuiltIn.

End BuiltIn.

(** ** [src/cli.ts]: the directory walk and the name of a file *)

Module Walk.

(** What [readdirSync] and [statSync] show of a directory: its items, each
    a regular file, a directory with its own items, or something else. *)
Local Unset Elimination Schemes.
Inductive item :=
| File (name : jsstring)
| Directory (name : jsstring) (items : list item)
| Other (name : jsstring).
Local Set Elimination Schemes.

Definition name_of (i : item) : jsstring :=
  match i with
  | File name | Directory name _ | Other name => name
  end.

Section Walk.
(** [path.join], [path.basename] and [path.extname] are the platform's. *)
Variable join : jsstring → jsstring → jsstring.
Variable basename : jsstring → jsstring → jsstring.
Variable extname : jsstring → jsstring.

(** The body of the loop of [traversaDirectory] for one item: the paths
    the callback is called with, in order. *)
Fixpoint traverse_item (ignore : list jsstring) (root : jsstring) (i : item)
  : list jsstring :=
  if includes ignore (name_of i) then []
  else
    let fn := join root (name_of i) in
    match i with
    | Directory _ items => flat_map (traverse_item ignore fn) items
    | File _ =>
        if negb (Cli.endsWith fn (lit ".ts")) && negb (Cli.endsWith fn (lit ".js"))
        then []
        else [fn]
    | Other _ => []
    end.

Definition traversaDirectory (root : jsstring) (items : list item)
    (ignore : list jsstring) : list jsstring :=
  flat_map (traverse_item ignore root) items.

Definition key_of (key : Cli.kind) : jsstring :=
  match key with
  | Cli.cmd => lit "cmd"
  | Cli.plugin => lit "plugin"
  end.

(** [path.basename(fn, path.extname(fn)).replace(`.${key}`, '')] *)
Definition getName (fn : jsstring) (key : Cli.kind) : jsstring :=
  JSText.replace_first (lit "." ++ key_of key) [] (basename fn (extname fn)).

End Walk.

(** The items that are left when every item with an ignored name is taken
    out, at every depth. *)
Fixpoint prune (ignore : list jsstring) (i : item) : list item :=
  if includes ignore (name_of i) then []
  else match i with
       | Directory name items => [Directory name (flat_map (prune ignore) items)]
       | _ => [i]
       end.

End Walk.

(** ** More classes for the properties below *)

Module MoreExamples.

(** A command whose validator answers with the empty string. *)
Definition silent : BaseCommand.class Examples.W Examples.Exn :=
  {| BaseCommand.static_name := lit "silent";
     BaseCommand.force := false;
     BaseCommand.get_args :=
       {| CommandArgs.name := lit "silent";
          CommandArgs.description := Some (lit "says nothing");
          CommandArgs.aliases := Some [];
          CommandArgs.plugins := None;
          CommandArgs.group := None;
          CommandArgs.options :=
            [ Examples.flag_option "--name <value>" "-n" None (Some true);
              {| CommandOption.flag := lit "--verbose";
                 CommandOption.abbreviation := None;
                 CommandOption.description := Some (lit "more output");
                 CommandOption.defaultValue := Some (Bool false);
                 CommandOption.required := None |} ];
          CommandArgs.examples := Some [lit "jshow silent"; lit "jshow silent -n x"];
          CommandArgs.validate := Some (λ options, Some []) |};
     BaseCommand.proto_onError := BaseCommand.base_onError Examples.console_error;
     BaseCommand.proto_beforeExecute := None;
     BaseCommand.proto_execute := λ options, Examples.log (lit "silent: run");
     BaseCommand.proto_afterExecute := Some (λ context, Examples.log (lit "silent: done")) |}.

(** A command whose [execute] throws. *)
Definition broken : BaseCommand.class Examples.W Examples.Exn :=
  {| BaseCommand.static_name := lit "broken";
     BaseCommand.force := false;
     BaseCommand.get_args :=
       {| CommandArgs.name := lit "broken";
          CommandArgs.description := None;
          CommandArgs.aliases := None;
          CommandArgs.plugins := Some [lit "logger"];
          CommandArgs.group := Some (lit "build");
          CommandArgs.options := [];
          CommandArgs.examples := None;
          CommandArgs.validate := None |};
     BaseCommand.proto_onError := BaseCommand.base_onError Examples.console_error;
     BaseCommand.proto_beforeExecute := None;
     BaseCommand.proto_execute := λ options w, (w, Throw (Raised tt));
     BaseCommand.proto_afterExecute := Some (λ context, Examples.log (lit "broken: done")) |}.

(** A plugin of a given name and priority, with both hooks. *)
Definition ranked (name : string) (priority : number)
  : BasePlugin.class Examples.W Examples.Exn :=
  {| BasePlugin.static_name := lit name;
     BasePlugin.force := false;
     BasePlugin.proto_constructor := Normal tt;
     BasePlugin.get_priority := Normal priority;
     BasePlugin.proto_beforeExecute :=
       Some (λ context, Examples.log (lit name ++ lit ": before"));
     BasePlugin.proto_afterExecute :=
       Some (λ context, Examples.log (lit name ++ lit ": after")) |}.



(** A plugin whose [priority] getter throws, and one whose constructor
    does. *)
Definition boom : BasePlugin.class Examples.W Examples.Exn :=
  {| BasePlugin.static_name := lit "boom";
     BasePlugin.force := false;
     BasePlugin.proto_constructor := Normal tt;
     BasePlugin.get_priority := Throw (Error (lit "priority boom"));
     BasePlugin.proto_beforeExecute := None;
     BasePlugin.proto_afterExecute := None |}.

Definition stillborn : BasePlugin.class Examples.W Examples.Exn :=
  {| BasePlugin.static_name := lit "stillborn";
     BasePlugin.force := true;
     BasePlugin.proto_constructor := Throw (Raised tt);
     BasePlugin.get_priority := Normal (Num 100);
     BasePlugin.proto_beforeExecute := None;
     BasePlugin.proto_afterExecute := None |}.

(** A directory as the walk sees it. *)
Definition tree : list Walk.item :=
  [ Walk.File (lit "hello.cmd.ts");
    Walk.Directory (lit "node_modules")
      [ Walk.Directory (lit "pkg") [ Walk.File (lit "index.js") ] ];
    Walk.Directory (lit "plugins")
      [ Walk.File (lit "logger.plugin.ts"); Walk.File (lit "README.md");
        Walk.Other (lit "socket") ];
    Walk.File (lit "notes.txt") ].

(** [path.join] for a root and one name. *)
Definition join (root name : jsstring) : jsstring := root ++ lit "/" ++ name.

End MoreExamples.

(** * Properties *)


(** ** The sort, for any comparison *)

Section SortFacts.
Context {A : Type} (cmp : A → A → number).

(** No element compares greater than its right neighbour: the arrays that
    [sort] leaves as they are. *)
Local Abbreviation settled := (Sorted (λ y x : A, greater cmp y x = false)).

Lemma insert_Permutation x l : Permutation (insert cmp x l) (x :: l).
Proof.
  induction l as [|y l IH]; [done|]. cbn [insert].
  destruct (forallb _ (y :: l)); [done|]. rewrite IH. apply perm_swap.
Qed.

(** Inserting adds the element and moves nothing else. *)
Lemma insert_sublist x l : sublist l (insert cmp x l).
Proof.
  induction l as [|y l IH]; [apply sublist_nil_l|]. cbn [insert].
  destruct (forallb _ (y :: l)); [by apply sublist_cons | by apply sublist_skip].
Qed.

Lemma insert_length x l : length (insert cmp x l) = S (length l).
Proof. apply (Permutation_length (insert_Permutation x l)). Qed.

Lemma sort_snoc l x : sort cmp (l ++ [x]) = insert cmp x (sort cmp l).
Proof. unfold sort. by rewrite foldl_app. Qed.

Lemma sort_Permutation l : Permutation (sort cmp l) l.
Proof.
  induction l as [|x l IH] using rev_ind; [done|].
  rewrite sort_snoc, insert_Permutation, IH. apply Permutation_cons_append.
Qed.

(** An element stays behind a last element that does not compare greater. *)
Lemma insert_snoc x y l :
  greater cmp y x = false → insert cmp x (l ++ [y]) = l ++ [y; x].
Proof.
  intros Hy. induction l as [|z l IH]; cbn [app insert forallb].
  - by rewrite Hy.
  - rewrite forallb_app. cbn [forallb]. rewrite Hy, andb_false_r, andb_false_r.
    by rewrite IH.
Qed.

Lemma settled_snoc_inv l x :
  settled (l ++ [x]) →
  settled l ∧ ∀ l' y, l = l' ++ [y] → greater cmp y x = false.
Proof.
  induction l as [|a l IH]; cbn [app]; intros Hs.
  - split; [constructor|]. by intros [|? ?] y.
  - apply Sorted_inv in Hs as [Hs Ha]. destruct (IH Hs) as [Hl Hlast]. split.
    + constructor; [done|]. destruct l; [constructor|].
      apply HdRel_inv in Ha. by constructor.
    + intros l' y Heq. destruct l' as [|b l'].
      * injection Heq as -> ->. by apply HdRel_inv in Ha.
      * injection Heq as -> ->. by eapply Hlast.
Qed.

(** Sorting a settled array leaves it as it is. *)
Lemma sort_settled l : settled l → sort cmp l = l.
Proof.
  induction l as [|x l IH] using rev_ind; [done|].
  intros [Hl Hlast]%settled_snoc_inv. rewrite sort_snoc, IH by done.
  destruct l as [|a l _] using rev_ind; [done|].
  rewrite <- app_assoc. apply insert_snoc. by eapply Hlast.
Qed.

(** Inserting into a settled array leaves it settled, when the comparison
    never answers "greater" both ways. *)
Lemma insert_settled x l :
  (∀ y, greater cmp y x = true → greater cmp x y = false) →
  settled l → settled (insert cmp x l).
Proof.
  intros Hanti. induction 1 as [|y l Hl IH Hy]; [by repeat constructor|].
  cbn [insert]. destruct (forallb _ (y :: l)) eqn:Hall.
  - constructor; [by constructor|]. constructor. apply Hanti.
    cbn [forallb] in Hall. by apply andb_true_iff in Hall as [? _].
  - constructor; [done|]. cbn [forallb] in Hall.
    destruct l as [|b l]; cbn [insert].
    + constructor. by rewrite andb_true_r in Hall.
    + apply HdRel_inv in Hy. destruct (forallb _ (b :: l)); [|by constructor].
      constructor. by rewrite andb_true_r in Hall.
Qed.

End SortFacts.

(** ** The sort, for a comparison of keys *)

Section SortByKey.
Context {A : Type} (key : A → number).

Local Abbreviation key_cmp := (JS.key_cmp key).
Local Abbreviation key_le := (JS.key_le key).
Local Abbreviation has_key := (JS.has_key key).
Local Abbreviation settled := (Sorted (λ y x : A, greater key_cmp y x = false)).

(** The comparison answers "greater" exactly for two keys that are numbers,
    the first of them the larger. *)
Lemma greater_key y x :
  greater key_cmp y x = true ↔ ∃ ky kx, key y = Num ky ∧ key x = Num kx ∧ kx < ky.
Proof.
  unfold greater, JS.key_cmp, sub. destruct (key y) as [ky|], (key x) as [kx|]; simpl.
  - rewrite Z.ltb_lt. split.
    + intros Hlt. exists ky, kx. repeat split; lia.
    + intros (? & ? & [= <-] & [= <-] & Hlt). lia.
  - split; [done|]. by intros (? & ? & _ & [=] & _).
  - split; [done|]. by intros (? & ? & [=] & _).
  - split; [done|]. by intros (? & ? & [=] & _).
Qed.

Lemma greater_key_antisym y x :
  greater key_cmp y x = true → greater key_cmp x y = false.
Proof.
  intros (ky & kx & Hy & Hx & Hlt)%greater_key.
  apply not_true_is_false. intros (kx' & ky' & Hx' & Hy' & Hlt')%greater_key.
  rewrite Hx in Hx'. rewrite Hy in Hy'. injection Hx' as <-. injection Hy' as <-. lia.
Qed.

Lemma not_greater_key_le y x :
  key y ≠ NaN → key x ≠ NaN → greater key_cmp y x = false → key_le y x.
Proof.
  intros Hy Hx Hg. unfold JS.key_le, le.
  destruct (key y) as [ky|] eqn:Hky, (key x) as [kx|] eqn:Hkx; try done.
  destruct (Z.le_gt_cases ky kx) as [|Hlt]; [done|].
  assert (greater key_cmp y x = true) as Ht; [|congruence].
  apply greater_key. exists ky, kx. repeat split; [done..|lia].
Qed.

Lemma key_le_trans : Transitive key_le.
Proof.
  intros a b c. unfold JS.key_le, le.
  destruct (key a), (key b), (key c); try done. lia.
Qed.

(** A settled array without [NaN] keys is in ascending order. *)
Lemma settled_StronglySorted l :
  Forall (λ a, key a ≠ NaN) l → settled l → StronglySorted key_le l.
Proof.
  intros Hfin Hs. apply Sorted_StronglySorted; [exact key_le_trans|].
  induction Hs as [|y l Hl IH Hy]; [constructor|].
  apply Forall_cons in Hfin as [Hfy Hfl]. constructor; [by apply IH|].
  destruct Hy as [|x l Hyx]; constructor.
  apply Forall_cons in Hfl as [Hfx _]. by apply not_greater_key_le.
Qed.

(** Inserting puts the new element behind the elements of its own key, and
    leaves the elements of any key in the order they had. *)
Lemma insert_has_key k x l :
  List.filter (has_key k) (insert key_cmp x l)
  = List.filter (has_key k) l ++ List.filter (has_key k) [x].
Proof.
  induction l as [|y l IH]; [done|]. cbn [insert].
  destruct (forallb _ (y :: l)) eqn:Hall.
  - destruct (has_key k x) eqn:Hx.
    + assert (List.filter (has_key k) (y :: l) = []) as Hnil.
      { apply bool_decide_eq_true in Hx.
        rewrite forallb_forall in Hall. clear IH.
        induction (y :: l) as [|z l' IH']; [done|]. cbn [List.filter].
        assert (has_key k z = false) as ->.
        { apply bool_decide_eq_false. intros Hz.
          destruct (proj1 (greater_key z x) (Hall z (or_introl eq_refl)))
            as (kz & kx & Hkz & Hkx & Hlt).
          rewrite Hz in Hkz. rewrite Hx in Hkx.
          injection Hkz as <-. injection Hkx as <-. lia. }
        apply IH'. intros z' Hz'. apply Hall. by right. }
      cbn [List.filter] in *. by rewrite Hx, Hnil.
    + cbn [List.filter]. by rewrite Hx, app_nil_r.
  - cbn [List.filter]. rewrite IH. by destruct (has_key k y).
Qed.

End SortByKey.

(** ** The registry *)

Section RegistryFacts.
Context {W Exn : Type}.
Implicit Types (shape : CommandProgram.programShape W Exn).
Implicit Types (plugin : BasePlugin.class W Exn) (command : BaseCommand.class W Exn).
Implicit Types (calls : list (@CommandProgram.registration W Exn)).

Local Abbreviation priority_le := (key_le (@PluginType.priority W Exn)).
Local Abbreviation of_priority := (has_key (@PluginType.priority W Exn)).
Local Abbreviation settled :=
  (Sorted (λ y x : PluginType.t W Exn, greater CommandProgram.by_priority y x = false)).
Local Abbreviation is_entry :=
  (λ e : PluginType.t W Exn, CommandProgram.entry (PluginType.plugin e) = Normal e).

Import CommandProgram.

(** The name is taken: some entry of the plugin list carries it. *)
Lemma some_name_spec (name : jsstring) (l : list (PluginType.t W Exn)) :
  some (λ p, bool_decide (PluginType.name p = name)) l = true
  ↔ ∃ p, p ∈ l ∧ PluginType.name p = name.
Proof.
  unfold some. rewrite existsb_exists. split.
  - intros (p & Hin & Hp). exists p. split; [by apply list_elem_of_In|].
    by apply bool_decide_eq_true in Hp.
  - intros (p & Hin & Hp). exists p. split; [by apply list_elem_of_In|].
    by apply bool_decide_eq_true.
Qed.

(** How [entry] ends: as the constructor does when that throws, else as the
    getter of [priority] does. *)
Lemma entry_cases plugin :
  match entry plugin with
  | Normal item =>
      BasePlugin.proto_constructor plugin = Normal tt
      ∧ BasePlugin.get_priority plugin = Normal (PluginType.priority item)
      ∧ PluginType.name item = BasePlugin.static_name plugin
      ∧ PluginType.plugin item = plugin
      ∧ PluginType.instance item = Some (BasePlugin.new plugin)
  | Throw e =>
      BasePlugin.proto_constructor plugin = Throw e
      ∨ (BasePlugin.proto_constructor plugin = Normal tt
         ∧ BasePlugin.get_priority plugin = Throw e)
  end.
Proof.
  unfold entry, BasePlugin.construct, BasePlugin.priority.
  destruct (BasePlugin.proto_constructor plugin) as [[]|e]; [|by left].
  cbn. destruct (BasePlugin.get_priority plugin) as [priority|e]; [done|by right].
Qed.

Lemma entry_is_entry plugin item : entry plugin = Normal item → is_entry item.
Proof.
  intros He. pose proof (entry_cases plugin) as Hc. rewrite He in Hc.
  destruct Hc as (_ & _ & _ & Hp & _). by rewrite Hp.
Qed.

(** [install] without [force] refuses a name that is taken, and says so. *)
Lemma install_conflict plugin shape p :
  p ∈ plugins shape → PluginType.name p = BasePlugin.static_name plugin →
  install plugin false shape
  = Throw (Error (lit "Plugin '" ++ BasePlugin.static_name plugin
                  ++ lit "' already exists."))
  ∧ step shape (CallInstall plugin false) = shape.
Proof.
  intros Hin Hname. unfold step, install.
  assert (some (λ p, bool_decide (PluginType.name p = BasePlugin.static_name plugin))
            (plugins shape) = true) as ->; [|done].
  apply some_name_spec. eauto.
Qed.

(** [use] without [force] refuses a name that is taken, and says so. *)
Lemma use_conflict command shape :
  is_Some (commands shape !! BaseCommand.static_name command) →
  use command false shape
  = Throw (Error (lit "Command '" ++ BaseCommand.static_name command
                  ++ lit "' already exists."))
  ∧ step shape (CallUse command false) = shape.
Proof.
  intros Hin. unfold step, use. by rewrite bool_decide_eq_true_2.
Qed.

(** [use] with [force] succeeds; the name then maps to the new descriptor,
    the other names are as before, and no entry is added for a name that
    was taken. *)
Lemma use_force command shape :
  ∃ shape', use command true shape = Normal shape'
    ∧ plugins shape' = plugins shape
    ∧ commands shape' !! BaseCommand.static_name command
      = Some {| CommandType.name := BaseCommand.static_name command;
                CommandType.command := command;
                CommandType.instance := None;
                CommandType.group := None |}
    ∧ (∀ name, name ≠ BaseCommand.static_name command →
         commands shape' !! name = commands shape !! name)
    ∧ (is_Some (commands shape !! BaseCommand.static_name command) →
         size (commands shape') = size (commands shape)).
Proof.
  eexists. unfold use. rewrite andb_false_r. split; [done|]. simpl.
  split; [done|]. split; [apply lookup_insert_eq|]. split.
  - intros name Hne. by apply lookup_insert_ne.
  - intros [old Hold]. rewrite <- (insert_delete_id (commands shape) _ old) at 2 by done.
    rewrite <- insert_delete_eq.
    rewrite !map_size_insert_None by apply lookup_delete_eq. done.
Qed.

(** [install] with [force] never refuses a name: it pushes one more entry,
    and the entries that carried the name before are all still there. *)
Lemma install_force plugin shape item :
  entry plugin = Normal item →
  ∃ shape', install plugin true shape = Normal shape'
    ∧ Permutation (plugins shape') (plugins shape ++ [item])
    ∧ commands shape' = commands shape.
Proof.
  intros He. eexists. unfold install. rewrite andb_false_r, He. split; [done|].
  simpl. split; [|done]. apply sort_Permutation.
Qed.

Lemma install_commands plugin force shape shape' :
  install plugin force shape = Normal shape' → commands shape' = commands shape.
Proof.
  unfold install. destruct (_ && _); [done|].
  destruct (entry plugin); [|done]. by intros [= <-].
Qed.

(** What [install] does to a settled plugin list when it succeeds. *)
Lemma install_insert plugin force shape shape' :
  settled (plugins shape) →
  install plugin force shape = Normal shape' →
  ∃ item, entry plugin = Normal item
    ∧ plugins shape' = insert by_priority item (plugins shape)
    ∧ commands shape' = commands shape.
Proof.
  intros Hs. unfold install. destruct (_ && _); [done|].
  destruct (entry plugin) as [item|e]; [|done].
  intros [= <-]. exists item. simpl. split; [done|]. split; [|done].
  by rewrite sort_snoc, sort_settled.
Qed.

(** The invariant of the plugin list along any sequence of calls: sorting
    it again would change nothing, and it holds the pushed entries, those of
    one priority in the order they were pushed. *)
Lemma foldl_step_invariant calls shape acc :
  settled (plugins shape) →
  (∀ k, List.filter (of_priority k) (plugins shape) = List.filter (of_priority k) acc) →
  Permutation (plugins shape) acc →
  settled (plugins (foldl step shape calls))
  ∧ (∀ k, List.filter (of_priority k) (plugins (foldl step shape calls))
          = List.filter (of_priority k) (pushed_from shape acc calls))
  ∧ Permutation (plugins (foldl step shape calls)) (pushed_from shape acc calls).
Proof.
  revert shape acc. induction calls as [|c calls IH]; intros shape acc Hs Hk Hp; [done|].
  cbn [foldl pushed_from]. destruct c as [plugin force|command force|].
  - cbn [step pushed_by]. destruct (install plugin force shape) as [shape'|e] eqn:Hi.
    + destruct (install_insert _ _ _ _ Hs Hi) as (item & -> & Hpl & _).
      cbn [unchanged_on_throw].
      change (@by_priority W Exn) with (key_cmp (@PluginType.priority W Exn)) in *.
      apply IH.
      * rewrite Hpl. apply insert_settled; [|done].
        intros y. apply greater_key_antisym.
      * intros k. rewrite Hpl, insert_has_key. by rewrite List.filter_app, Hk.
      * rewrite Hpl, insert_Permutation, Hp. apply Permutation_cons_append.
    + cbn [unchanged_on_throw]. rewrite app_nil_r. by apply IH.
  - cbn [step pushed_by]. rewrite app_nil_r.
    assert (plugins (unchanged_on_throw shape (use command force shape))
            = plugins shape) as Heq by (unfold use; by destruct (_ && _)).
    apply IH; by rewrite Heq.
  - cbn [step]. apply IH; [constructor|done..].
Qed.

Lemma pushed_from_entries calls shape acc :
  Forall is_entry acc → Forall is_entry (pushed_from shape acc calls).
Proof.
  revert shape acc. induction calls as [|c calls IH]; intros shape acc Hacc; [done|].
  cbn [pushed_from]. apply IH. destruct c as [plugin force|command force|]; [| |done].
  - apply Forall_app. split; [done|]. cbn [pushed_by].
    destruct (install plugin force shape); [|constructor].
    destruct (entry plugin) as [item|e] eqn:He; [|constructor].
    repeat constructor. by apply (entry_is_entry plugin).
  - by rewrite app_nil_r.
Qed.

(** After any sequence of calls, sorting the plugin list again would change
    nothing. *)
Lemma after_settled calls : settled (plugins (after calls)).
Proof.
  by destruct (foldl_step_invariant calls (@initial W Exn) []) as (? & _ & _);
    [constructor|..].
Qed.

(** When none of its priorities is [NaN], the plugin list is in ascending
    order. *)
Lemma after_sorted calls :
  Forall (λ e, PluginType.priority e ≠ NaN) (plugins (after calls)) →
  StronglySorted priority_le (plugins (after calls)).
Proof.
  intros Hfin. apply settled_StronglySorted; [done|]. apply after_settled.
Qed.

(** Every entry of the registry is the one [install] built for its class. *)
Lemma after_entries calls : Forall is_entry (plugins (after calls)).
Proof.
  destruct (foldl_step_invariant calls (@initial W Exn) []) as (_ & _ & Hp);
    [constructor|done..|].
  unfold after. rewrite Hp. by apply pushed_from_entries.
Qed.

End RegistryFacts.

(** C8, amended: after any sequence of registration calls the plugin list
    holds the pushed entries, none lost and none added; and when none of the
    recorded priorities is [NaN] it is sorted ascending by the recorded
    priority, and the entries of one priority stand in the order in which
    they were pushed (the sort is stable). *)
Theorem install_sorted_stable {W Exn} (calls : list (@CommandProgram.registration W Exn)) :
  let plugins := CommandProgram.plugins (CommandProgram.after calls) in
  Permutation plugins (CommandProgram.pushed calls)
  ∧ (Forall (λ e, PluginType.priority e ≠ NaN) plugins →
     StronglySorted (key_le PluginType.priority) plugins
     ∧ ∀ k, List.filter (has_key PluginType.priority k) plugins
            = List.filter (has_key PluginType.priority k) (CommandProgram.pushed calls)).
Proof.
  intros plugins.
  destruct (foldl_step_invariant calls (@CommandProgram.initial W Exn) [])
    as (_ & Hk & Hp); [constructor|done..|].
  split; [exact Hp|]. intros Hfinite. split; [by apply after_sorted | exact Hk].
Qed.

(** C8 at the examples: [timer] (100), [logger] (50), [failing] (100) and
    [error-handler] (200), installed in this order. *)
Lemma install_sorted_stable_witness :
  let calls := [CommandProgram.CallInstall Examples.timer false;
                CommandProgram.CallInstall Examples.logger false;
                CommandProgram.CallInstall Examples.failing false;
                CommandProgram.CallInstall Examples.errorHandler false] in
  let plugins := CommandProgram.plugins (CommandProgram.after calls) in
  Forall (λ e, PluginType.priority e ≠ NaN) plugins
  ∧ StronglySorted (key_le PluginType.priority) plugins
  ∧ List.map PluginType.name (List.filter (has_key PluginType.priority 100) plugins)
    = [lit "timer"; lit "failing"]
  ∧ List.map PluginType.name plugins
    = [lit "logger"; lit "timer"; lit "failing"; lit "error-handler"].
Proof.
  intros calls plugins.
  assert (Forall (λ e, PluginType.priority e ≠ NaN) plugins) as Hfinite.
  { repeat constructor; discriminate. }
  destruct (install_sorted_stable calls) as [_ Hordered].
  destruct (Hordered Hfinite) as [Hsorted Hstable].
  split; [exact Hfinite|]. split; [exact Hsorted|]. split; [|reflexivity].
  unfold plugins. rewrite (Hstable 100). reflexivity.
Defined.

(** C8, as stated, fails when a priority is [NaN]: the comparison with it
    answers [NaN], which [sort] reads as "equal", and the plugins installed
    with the priorities 2, [NaN], 1 stay in that order. *)
Lemma install_nan_priority_unsorted :
  let calls := [CommandProgram.CallInstall (MoreExamples.ranked "a" (Num 2)) false;
                CommandProgram.CallInstall (MoreExamples.ranked "n" NaN) false;
                CommandProgram.CallInstall (MoreExamples.ranked "b" (Num 1)) false] in
  let plugins := CommandProgram.plugins (CommandProgram.after calls) in
  List.map PluginType.name plugins = [lit "a"; lit "n"; lit "b"]
  ∧ List.map PluginType.priority plugins = [Num 2; NaN; Num 1]
  ∧ ¬ StronglySorted (key_le PluginType.priority) plugins.
Proof.
  intros calls plugins. split; [reflexivity|]. split; [reflexivity|].
  intros [_ Hfirst]%StronglySorted_inv.
  apply Forall_inv in Hfirst. exact Hfirst.
Qed.

(** C2, at the failing input: installing [logger] and then installing it
    again with [force] leaves two entries under the name, and a command
    that opts into it runs its hooks twice. *)
Theorem install_force_keeps_prior_entry :
  let shape := CommandProgram.after
                 [CommandProgram.CallInstall Examples.logger false;
                  CommandProgram.CallInstall Examples.logger true;
                  CommandProgram.CallUse Examples.build false] in
  Normal <$> CommandProgram.plugins shape
  = [CommandProgram.entry Examples.logger; CommandProgram.entry Examples.logger]
  ∧ Examples.calls_of ∅
      (CommandProgram.dispatch (CommandProgram.run shape) (lit "build")
         Examples.opts [Object] 0)
    = [PluginBefore (lit "logger"); PluginBefore (lit "logger");
       CommandBefore; CommandExecute; CommandAfter;
       PluginAfter (lit "logger"); PluginAfter (lit "logger")].
Proof. split; reflexivity. Qed.

(** ** Resolving the plugins of a command *)

Section Resolution.
Context {W Exn : Type}.
Implicit Types (shape : CommandProgram.programShape W Exn).
Implicit Types (calls : list (@CommandProgram.registration W Exn)).

Local Abbreviation is_entry :=
  (λ e : PluginType.t W Exn, CommandProgram.entry (PluginType.plugin e) = Normal e).

Import CommandProgram.

Lemma StronglySorted_filter {A} (R : A → A → Prop) (f : A → bool) l :
  StronglySorted R l → StronglySorted R (List.filter f l).
Proof.
  induction 1 as [|x l Hl IH Hx]; simpl; [constructor|].
  destruct (f x); [|done]. constructor; [done|].
  apply Forall_forall. intros y [Hy _]%list_elem_of_In%filter_In.
  rewrite Forall_forall in Hx. by apply Hx, list_elem_of_In.
Qed.

Lemma filter_sublist {A} (f : A → bool) (l : list A) : sublist (List.filter f l) l.
Proof.
  induction l as [|x l IH]; simpl; [done|].
  destruct (f x); [by apply sublist_skip | by apply sublist_cons].
Qed.

(** Filtering the instances by their names is filtering the entries by
    theirs: every entry has its instance, under the same name. *)
Lemma resolve_entries (names : list jsstring) (l : list (PluginType.t W Exn)) :
  Forall is_entry l →
  Some <$> List.filter (λ p, includes names (BasePlugin.name p))
             (omap PluginType.instance l)
  = PluginType.instance
      <$> List.filter (λ e, includes names (PluginType.name e)) l.
Proof.
  induction 1 as [|e l He _ IH]; [done|].
  pose proof (entry_cases (PluginType.plugin e)) as Hc. rewrite He in Hc.
  destruct Hc as (_ & _ & Hname & _ & Hinst).
  cbn [omap list_omap]. rewrite Hinst. cbn [List.filter].
  unfold BasePlugin.name at 1. cbn [BasePlugin.constructor]. rewrite <- Hname.
  destruct (includes names (PluginType.name e)); [|exact IH].
  cbn [fmap list_fmap]. rewrite Hinst. f_equal. exact IH.
Qed.

Lemma resolve_names (names : list jsstring) (l : list (PluginType.t W Exn)) :
  Forall is_entry l →
  List.map BasePlugin.name
    (List.filter (λ p, includes names (BasePlugin.name p))
       (omap PluginType.instance l))
  = List.map PluginType.name
      (List.filter (λ e, includes names (PluginType.name e)) l).
Proof.
  induction 1 as [|e l He _ IH]; [done|].
  pose proof (entry_cases (PluginType.plugin e)) as Hc. rewrite He in Hc.
  destruct Hc as (_ & _ & Hname & _ & Hinst).
  cbn [omap list_omap]. rewrite Hinst. cbn [List.filter].
  change (BasePlugin.name (BasePlugin.new (PluginType.plugin e)))
    with (BasePlugin.static_name (PluginType.plugin e)).
  rewrite <- Hname.
  destruct (includes names (PluginType.name e)); [|exact IH].
  cbn [List.map]. rewrite IH. f_equal.
  change (BasePlugin.name (BasePlugin.new (PluginType.plugin e)))
    with (BasePlugin.static_name (PluginType.plugin e)).
  by rewrite Hname.
Qed.

(** Membership is all the filter reads of the declared names. *)
Lemma filter_includes_ext (names names' : list jsstring) (l : list (PluginType.t W Exn)) :
  (∀ n, n ∈ names ↔ n ∈ names') →
  List.filter (λ e, includes names (PluginType.name e)) l
  = List.filter (λ e, includes names' (PluginType.name e)) l.
Proof.
  intros Hiff. apply List.filter_ext. intros p. unfold includes.
  apply bool_decide_ext, Hiff.
Qed.

Lemma run_lookup shape name :
  commands (run shape) !! name
  = (λ item, match CommandType.instance item with
             | Some _ => item
             | None => setupCommand (omap PluginType.instance (plugins shape)) item
             end) <$> commands shape !! name.
Proof. unfold run. cbn [commands]. apply lookup_fmap. Qed.

(** [run()] binds a command that has no instance yet to the instances of
    the plugins installed at that time. *)
Lemma run_binds shape name item :
  commands shape !! name = Some item → CommandType.instance item = None →
  commands (run shape) !! name ≫= CommandType.instance
  = Some (BaseCommand.new (CommandType.command item)
            (omap PluginType.instance (plugins shape))).
Proof.
  intros Hitem Hnone. rewrite run_lookup, Hitem. simpl. by rewrite Hnone.
Qed.

(** A command that [run()] has bound keeps its instance when a plugin is
    installed afterwards and the program is run again. *)
Lemma run_keeps_bound shape (plugin : BasePlugin.class W Exn) force shape' name this :
  commands (run shape) !! name ≫= CommandType.instance = Some this →
  install plugin force (run shape) = Normal shape' →
  commands (run shape') !! name ≫= CommandType.instance = Some this.
Proof.
  intros Hthis Hi. rewrite run_lookup, (install_commands _ _ _ _ Hi).
  destruct (commands (run shape) !! name) as [item|]; [|done].
  simpl in *. by rewrite Hthis.
Qed.

End Resolution.

(** C4, amended: the plugins a command resolves are those that were installed
    when [run()] bound the command, in the order of the plugin list, that
    carry one of the declared names; a plugin installed later is not among
    them.  Only membership in the declared names matters: any list with the
    same names gives the same plugins in the same order.  That order is
    ascending priority when no installed priority is [NaN]. *)
Theorem getPlugins_filters_installed {W Exn}
    (calls : list (@CommandProgram.registration W Exn))
    (command : BaseCommand.class W Exn) (names' : list jsstring) :
  let names := default [] (CommandArgs.plugins (BaseCommand.get_args command)) in
  let shape := CommandProgram.step (CommandProgram.after calls)
                 (CommandProgram.CallUse command true) in
  let installed := CommandProgram.plugins shape in
  let chosen := List.filter (λ e, includes names (PluginType.name e)) installed in
  (∀ n, n ∈ names ↔ n ∈ names') →
  ∃ this,
    CommandProgram.commands (CommandProgram.run shape)
      !! BaseCommand.static_name command ≫= CommandType.instance = Some this
    ∧ installed = CommandProgram.plugins (CommandProgram.after calls)
    ∧ Some <$> BaseCommand.getPlugins this = PluginType.instance <$> chosen
    ∧ List.map BasePlugin.name (BaseCommand.getPlugins this)
      = List.map PluginType.name chosen
    ∧ sublist chosen installed
    ∧ chosen = List.filter (λ e, includes names' (PluginType.name e)) installed
    ∧ (Forall (λ e, PluginType.priority e ≠ NaN) installed →
       StronglySorted (key_le PluginType.priority) chosen)
    ∧ (∀ plugin force shape',
         CommandProgram.install plugin force (CommandProgram.run shape) = Normal shape' →
         CommandProgram.commands (CommandProgram.run shape')
           !! BaseCommand.static_name command ≫= CommandType.instance = Some this).
Proof.
  intros names shape installed chosen Hnames.
  destruct (use_force command (CommandProgram.after calls))
    as (shape' & Huse & Hplugins & Hlookup & _).
  assert (shape = shape') as Hshape.
  { unfold shape. cbn [CommandProgram.step]. by rewrite Huse. }
  clearbody shape. subst shape'.
  pose proof (run_binds _ _ _ Hlookup eq_refl) as Hthis.
  cbn [CommandType.command] in Hthis.
  eexists. split; [exact Hthis|].
  assert (Forall (λ e, CommandProgram.entry (PluginType.plugin e) = Normal e) installed)
    as Hentries.
  { unfold installed. rewrite Hplugins. apply after_entries. }
  pose proof (resolve_entries names installed Hentries) as Hresolve.
  split; [done|]. split; [exact Hresolve|].
  split; [exact (resolve_names names installed Hentries)|].
  split; [apply filter_sublist|]. split; [by apply filter_includes_ext|]. split.
  { intros Hfinite. apply StronglySorted_filter. unfold installed in *.
    rewrite Hplugins in *. by apply after_sorted. }
  intros plugin force shape' Hi. by eapply run_keeps_bound.
Qed.

(** C4 at [examples/]: [error-handler] (200), [timer] (100) and [logger]
    (50) are installed; a command that declares [error-handler, logger]
    resolves [logger], [error-handler], and [timer] is left out. *)
Lemma getPlugins_filters_installed_witness :
  let calls := [CommandProgram.CallInstall Examples.errorHandler false;
                CommandProgram.CallInstall Examples.timer false;
                CommandProgram.CallInstall Examples.logger false] in
  (∀ n, n ∈ [lit "error-handler"; lit "logger"]
        ↔ n ∈ [lit "logger"; lit "error-handler"])
  ∧ Forall (λ e, PluginType.priority e ≠ NaN)
      (CommandProgram.plugins (CommandProgram.after calls))
  ∧ List.map PluginType.name (CommandProgram.plugins (CommandProgram.after calls))
    = [lit "logger"; lit "timer"; lit "error-handler"]
  ∧ ∃ this,
      CommandProgram.commands
        (Examples.installed [Examples.errorHandler; Examples.timer; Examples.logger]
           [Examples.test_with [lit "error-handler"; lit "logger"]])
        !! lit "test" ≫= CommandType.instance = Some this
      ∧ List.map BasePlugin.name (BaseCommand.getPlugins this)
        = [lit "logger"; lit "error-handler"]
      ∧ StronglySorted (key_le PluginType.priority)
          (List.filter (λ e, includes [lit "error-handler"; lit "logger"]
                               (PluginType.name e))
             (CommandProgram.plugins (CommandProgram.after calls))).
Proof.
  intros calls.
  assert (∀ n, n ∈ [lit "error-handler"; lit "logger"]
               ↔ n ∈ [lit "logger"; lit "error-handler"]) as Hnames.
  { intros n. rewrite !elem_of_cons. tauto. }
  assert (Forall (λ e, PluginType.priority e ≠ NaN)
            (CommandProgram.plugins (CommandProgram.after calls))) as Hfinite.
  { repeat constructor; discriminate. }
  split; [exact Hnames|]. split; [exact Hfinite|]. split; [reflexivity|].
  destruct (getPlugins_filters_installed calls
              (Examples.test_with [lit "error-handler"; lit "logger"])
              [lit "logger"; lit "error-handler"] Hnames)
    as (this & Hthis & _ & _ & Hget & _ & _ & Hsorted & _).
  exists this. split; [|split].
  - etrans; [|exact Hthis]. reflexivity.
  - rewrite Hget. reflexivity.
  - apply Hsorted. exact Hfinite.
Defined.

(** C4, as stated, fails in two ways.  [build] declares [logger, timer] and
    is bound by [run()] while only [logger] is installed: [timer], installed
    afterwards, is in the installed list but not among the resolved plugins.
    And with the priorities 2, [NaN], 1 the resolved plugins are not in the
    order of their priorities. *)
Lemma resolved_plugins_fixed_at_run :
  let bound := CommandProgram.run
                 (CommandProgram.after
                    [CommandProgram.CallInstall Examples.logger false;
                     CommandProgram.CallUse Examples.build false]) in
  let names := [lit "logger"; lit "timer"] in
  (∃ shape' this,
     CommandProgram.install Examples.timer false bound = Normal shape'
     ∧ CommandProgram.commands (CommandProgram.run shape') !! lit "build"
         ≫= CommandType.instance = Some this
     ∧ CommandArgs.plugins (BaseCommand.args this) = Some names
     ∧ List.map BasePlugin.name (BaseCommand.getPlugins this) = [lit "logger"]
     ∧ List.map PluginType.name
         (List.filter (λ e, includes names (PluginType.name e))
            (CommandProgram.plugins shape'))
       = [lit "logger"; lit "timer"])
  ∧ ∃ this,
      CommandProgram.commands
        (Examples.installed
           [MoreExamples.ranked "a" (Num 2); MoreExamples.ranked "n" NaN;
            MoreExamples.ranked "b" (Num 1)]
           [Examples.test_with [lit "b"; lit "a"]])
        !! lit "test" ≫= CommandType.instance = Some this
      ∧ List.map BasePlugin.name (BaseCommand.getPlugins this) = [lit "a"; lit "b"]
      ∧ List.map BasePlugin.priority (BaseCommand.getPlugins this)
        = [Normal (Num 2); Normal (Num 1)].
Proof.
  intros bound names. split.
  - eexists _, _. split; [reflexivity|]. split; [reflexivity|]. done.
  - eexists. split; [reflexivity|]. done.
Qed.

(** ** The lookup key of a flag *)

Section OptionName.

Local Abbreviation no_space := (Forall (λ c, is_space c = false)).

Lemma take_until_space_all (name : jsstring) :
  no_space name → take_until_space name = name.
Proof. induction 1 as [|c name Hc _ IH]; simpl; [done|]. by rewrite Hc, IH. Qed.

Lemma take_until_space_app (name rest : jsstring) c :
  no_space name → is_space c = true → take_until_space (name ++ c :: rest) = name.
Proof.
  intros Hname Hc. induction Hname as [|d name Hd _ IH]; simpl.
  - by rewrite Hc.
  - by rewrite Hd, IH.
Qed.

Lemma drop_spaces_no_space (s : jsstring) : no_space s → drop_spaces s = s.
Proof. destruct 1 as [|c s Hc _]; simpl; [done|]. by rewrite Hc. Qed.

(** [trim] leaves a string without white space as it is. *)
Lemma trim_no_space (s : jsstring) : no_space s → trim s = s.
Proof.
  intros Hs. unfold trim. rewrite (drop_spaces_no_space s Hs).
  rewrite drop_spaces_no_space; [apply rev_involutive|].
  apply Forall_forall. intros c Hc%list_elem_of_In%in_rev%list_elem_of_In.
  rewrite Forall_forall in Hs. by apply Hs.
Qed.

(** The key of [--name placeholder] and of [--name] is [name]. *)
Lemma extractOptionName_long (name placeholder : jsstring) :
  no_space name →
  BaseCommand.extractOptionName (lit "--" ++ name ++ lit " " ++ placeholder) = name
  ∧ BaseCommand.extractOptionName (lit "--" ++ name) = name.
Proof.
  intros Hname. unfold BaseCommand.extractOptionName, split_spaces_first. simpl.
  rewrite take_until_space_app, take_until_space_all by done.
  by rewrite trim_no_space.
Qed.

End OptionName.

(** ** The action of a command *)

Section Lifecycle.
Context {W Exn : Type}.
Implicit Types (this : BaseCommand.t W Exn) (s : state W Exn).
Implicit Types (options : OptionValues W) (context : CommandContext.t W).
Implicit Types (held : gmap jsstring value).

Import BaseCommand.

Lemma call_spec {A} (ev : event Exn) (f : user W Exn A) s :
  call ev f s = (State (f (world s)).1 (calls s ++ [ev]), (f (world s)).2).
Proof. unfold call. by destruct (f (world s)). Qed.

(** A [forEach] over optional hooks calls them in the order of the list,
    and stops at the first one that throws. *)
Lemma forEach_hooks_calls {A C} (ev : A → event Exn)
    (hook : A → option (C → user W Exn unit)) (c : C) (l : list A) s s' r :
  forEach (λ x, call_opt (ev x) (hook x) c) l s = (s', r) →
  ∃ evs, calls s' = calls s ++ evs
    ∧ evs `prefix_of` hook_calls ev hook l
    ∧ (∀ a, r = Normal a → evs = hook_calls ev hook l).
Proof.
  revert s. induction l as [|x l IH]; intros s; cbn [forEach].
  - intros [= <- <-]. exists []. by rewrite app_nil_r.
  - unfold mbind, M_bind, hook_calls. cbn [flat_map]. fold (hook_calls ev hook l).
    unfold call_opt. destruct (hook x) as [h|].
    + rewrite call_spec. destruct (h c (world s)) as [w [[]|e]]; cbn [fst snd].
      * intros (evs & Hc & Hp & Hn)%IH. cbn [calls] in Hc.
        exists (ev x :: evs). rewrite Hc, <- app_assoc. split; [done|].
        split; [by apply prefix_cons|]. intros a Ha. by rewrite (Hn a Ha).
      * intros [= <- <-]. exists [ev x]. split; [done|].
        split; [|done]. apply prefix_cons, prefix_nil.
    + unfold mret, M_ret. intros (evs & Hc & Hp & Hn)%IH. by exists evs.
Qed.

(** When no hook throws, the [forEach] completes. *)
Lemma forEach_hooks_Normal {A C} (ev : A → event Exn)
    (hook : A → option (C → user W Exn unit)) (c : C) (l : list A) s :
  Forall (λ x, ∀ h, hook x = Some h → ∀ w, (h c w).2 = Normal tt) l →
  ∃ w, forEach (λ x, call_opt (ev x) (hook x) c) l s
       = (State w (calls s ++ hook_calls ev hook l), Normal tt).
Proof.
  intros Hl. revert s. induction Hl as [|x l Hx _ IH]; intros s; cbn [forEach].
  - exists (world s). unfold mret, M_ret. rewrite app_nil_r. by destruct s.
  - unfold mbind, M_bind, hook_calls. cbn [flat_map]. fold (hook_calls ev hook l).
    unfold call_opt. destruct (hook x) as [h|].
    + rewrite call_spec. specialize (Hx h eq_refl (world s)).
      destruct (h c (world s)) as [w r]. cbn [fst snd] in *. subst r.
      destruct (IH (State w (calls s ++ [ev x]))) as [w' Hw']. exists w'.
      unfold call_opt in Hw'. rewrite Hw'.
      cbn [calls]. by rewrite <- app_assoc.
    + unfold mret, M_ret. destruct (IH s) as [w' Hw']. exists w'.
      unfold call_opt, mret, M_ret in Hw'. by rewrite Hw'.
Qed.

Lemma call_opt_calls {C} (ev : event Exn) (hook : option (C → user W Exn unit))
    (c : C) s s' r :
  call_opt ev hook c s = (s', r) →
  calls s' = calls s ++ match hook with Some _ => [ev] | None => [] end.
Proof.
  unfold call_opt. destruct hook as [h|].
  - rewrite call_spec. by intros [= <- <-].
  - unfold mret, M_ret. intros [= <- <-]. by rewrite app_nil_r.
Qed.

(** The before-hooks: what they call, in any case and when they complete. *)
Lemma beforeHooks_calls this context s s' r :
  beforeHooks this (getPlugins this) context s = (s', r) →
  ∃ evs, calls s' = calls s ++ evs
    ∧ evs `prefix_of` before_calls this
    ∧ (∀ a, r = Normal a → evs = before_calls this).
Proof.
  unfold beforeHooks, mbind, M_bind, before_calls.
  destruct (forEach _ (getPlugins this) s) as [s1 [[]|e]] eqn:Hf;
    apply forEach_hooks_calls in Hf as (evs & Hc & Hp & Hn).
  - intros Hb. pose proof (call_opt_calls _ _ _ _ _ _ Hb) as Hc'.
    rewrite (Hn tt eq_refl) in Hc. eexists. split.
    { by rewrite Hc', Hc, <- app_assoc. }
    split; [|done]. done.
  - intros [= <- <-]. exists evs. split; [done|]. split; [|done].
    by apply prefix_app_r.
Qed.

(** The after-hooks, likewise. *)
Lemma afterHooks_calls this context s s' r :
  afterHooks this (getPlugins this) context s = (s', r) →
  ∃ evs, calls s' = calls s ++ evs
    ∧ evs `prefix_of` after_calls this
    ∧ (∀ a, r = Normal a → evs = after_calls this).
Proof.
  unfold afterHooks, mbind, M_bind, after_calls.
  destruct (call_opt CommandAfter (afterExecute this) context s) as [s1 [[]|e]] eqn:Hc;
    pose proof (call_opt_calls _ _ _ _ _ _ Hc) as Hc1.
  - intros (evs & Hc2 & Hp & Hn)%forEach_hooks_calls.
    eexists. split; [by rewrite Hc2, Hc1, <- app_assoc|].
    split; [by apply prefix_app|]. intros a Ha. by rewrite (Hn a Ha).
  - intros [= <- <-]. eexists. split; [done|]. split; [|done].
    apply prefix_app_r. done.
Qed.

(** The validation reads the options as they are when it runs, and makes
    no call. *)
Lemma validation_spec this options s :
  validation this options s
  = (s, if truthy_string (validateOptions this (options (world s)))
        then Throw (Error (default [] (validateOptions this (options (world s)))))
        else Normal tt).
Proof.
  unfold validation, read, mbind, M_bind.
  by destruct (truthy_string (validateOptions this (options (world s)))).
Qed.

(** The [try] block, step by step. *)
Lemma guarded_spec this options context s :
  guarded this options context s
  = match beforeHooks this (getPlugins this) context s with
    | (s1, Throw e) => (s1, Throw e)
    | (s1, Normal _) =>
        if truthy_string (validateOptions this (options (world s1)))
        then (s1, Throw (Error (default [] (validateOptions this (options (world s1))))))
        else match body this options s1 with
             | (s2, Throw e) => (s2, Throw e)
             | (s2, Normal _) => afterHooks this (getPlugins this) context s2
             end
    end.
Proof.
  unfold guarded. unfold mbind at 1 2 3, M_bind.
  destruct (beforeHooks this (getPlugins this) context s) as [s1 [[]|e]]; [|done].
  rewrite validation_spec.
  destruct (truthy_string (validateOptions this (options (world s1)))); [done|].
  by destruct (body this options s1) as [s2 [[]|e]].
Qed.

(** The [catch] block: [onError] is called with the error that was caught,
    and its answer decides. *)
Lemma handler_spec this context (e : thrown Exn) s :
  handler this context e s
  = (State (onError this e context (world s)).1 (calls s ++ [CommandOnError e]),
     match (onError this e context (world s)).2 with
     | Normal handled => if handled then Normal tt else Throw e
     | Throw e' => Throw e'
     end).
Proof.
  unfold handler, mbind, M_bind. rewrite call_spec.
  by destruct (onError this e context (world s)) as [w [[]|e']].
Qed.

Lemma action_caught this options args now s s' (e : thrown Exn) :
  guarded this options (context_of this options args now) s = (s', Throw e) →
  action this options args now s
  = handler this (context_of this options args now) e s'.
Proof. intros Hg. unfold action, try_catch. by rewrite Hg. Qed.

Lemma action_completed this options args now s s' :
  guarded this options (context_of this options args now) s = (s', Normal tt) →
  action this options args now s = (s', Normal tt).
Proof. intros Hg. unfold action, try_catch. by rewrite Hg. Qed.

(** When the before-hooks and the validation are through, [execute] is the
    next call. *)
Lemma action_after_validation this options args now s s1 :
  beforeHooks this (getPlugins this) (context_of this options args now) s
  = (s1, Normal tt) →
  truthy_string (validateOptions this (options (world s1))) = false →
  ∃ rest, calls (action this options args now s).1 = calls s1 ++ CommandExecute :: rest.
Proof.
  intros Hb Hv. set (context := context_of this options args now) in *.
  pose proof (guarded_spec this options context s) as Hg. rewrite Hb, Hv in Hg.
  assert (calls (body this options s1).1 = calls s1 ++ [CommandExecute]) as Hc2.
  { unfold body. by rewrite call_spec. }
  unfold action, try_catch. fold context. rewrite Hg.
  destruct (body this options s1) as [s2 [[]|e]]; cbn [fst] in Hc2.
  - destruct (afterHooks this (getPlugins this) context s2) as [s3 r] eqn:Ha.
    pose proof (afterHooks_calls _ _ _ _ _ Ha) as (evs & Hc3 & _).
    destruct r as [[]|e].
    + exists evs. cbn [fst]. by rewrite Hc3, Hc2, <- app_assoc.
    + exists (evs ++ [CommandOnError e]). rewrite handler_spec. cbn [fst calls].
      by rewrite Hc3, Hc2, <- !app_assoc.
  - exists [CommandOnError e]. rewrite handler_spec. cbn [fst calls].
    by rewrite Hc2, <- app_assoc.
Qed.

(** No before-hook is the command's body. *)
Lemma before_calls_no_execute this : CommandExecute ∉ before_calls this.
Proof.
  unfold before_calls, hook_calls. rewrite elem_of_app. intros [Hin|Hin].
  - apply list_elem_of_In, in_flat_map in Hin as (p & _ & Hin).
    destruct (BasePlugin.beforeExecute p); [|done].
    by destruct Hin as [|[]].
  - destruct (beforeExecute this); [|by apply elem_of_nil in Hin].
    by apply list_elem_of_singleton in Hin.
Qed.

(** The loop over the option specs finds the first required option that
    has no value, if there is one. *)
Lemma checkRequired_first held (pre post : list CommandOption.t) option :
  Forall (λ o, missing held o = false) pre →
  missing held option = true →
  checkRequired (pre ++ option :: post) held
  = Some (required_message (CommandOption.flag option)).
Proof.
  induction 1 as [|o pre Ho _ IH]; intros Hm; simpl.
  - by rewrite Hm.
  - rewrite Ho. by apply IH.
Qed.

Lemma checkRequired_None held (defs : list CommandOption.t) :
  Forall (λ o, missing held o = false) defs ↔ checkRequired defs held = None.
Proof.
  induction defs as [|o defs IH]; simpl; [done|]. rewrite Forall_cons, IH.
  destruct (missing held o); [by split; [intros [? _]|]|].
  by split; [intros [_ ?]|].
Qed.

Lemma checkRequired_Some held (defs : list CommandOption.t) message :
  checkRequired defs held = Some message →
  ∃ option, option ∈ defs ∧ missing held option = true
    ∧ message = required_message (CommandOption.flag option).
Proof.
  induction defs as [|o defs IH]; simpl; [done|].
  destruct (missing held o) eqn:Ho.
  - intros [= <-]. exists o. split; [left|done].
  - intros (o' & Hin & Hm)%IH. exists o'. split; [by right|done].
Qed.

Lemma checkRequired_missing held (defs : list CommandOption.t) option :
  option ∈ defs → missing held option = true →
  ∃ option', option' ∈ defs ∧ missing held option' = true
    ∧ checkRequired defs held
      = Some (required_message (CommandOption.flag option')).
Proof.
  intros Hin Hm. destruct (checkRequired defs held) as [message|] eqn:Hc.
  - apply checkRequired_Some in Hc as (o & ? & ? & ->). by exists o.
  - apply checkRequired_None in Hc. rewrite Forall_forall in Hc.
    specialize (Hc _ Hin). congruence.
Qed.

End Lifecycle.

(** C3, amended: when the before-hooks, the validation and the body of a
    command bound by [run()] complete, the calls made are: [beforeExecute]
    of the resolved plugins in their order, then the command's own; then
    [execute]; then the command's [afterExecute], then that of the resolved
    plugins in the same order as before.  The order of the resolved plugins
    is that of the plugin list, which is ascending priority when no
    installed priority is [NaN].  An after-hook that throws cuts the
    sequence short and hands over to [onError]. *)
Theorem hooks_bracket_the_command {W Exn}
    (regs : list (@CommandProgram.registration W Exn))
    (command : BaseCommand.class W Exn)
    (options : OptionValues W) (args : list value) (now : Z)
    (s s1 s2 : state W Exn) :
  let installed := CommandProgram.plugins (CommandProgram.after regs) in
  let this := BaseCommand.new command (omap PluginType.instance installed) in
  let context := BaseCommand.context_of this options args now in
  let plugins := BaseCommand.getPlugins this in
  let names := default [] (CommandArgs.plugins (BaseCommand.args this)) in
  let chosen := List.filter (λ e, includes names (PluginType.name e)) installed in
  BaseCommand.beforeHooks this plugins context s = (s1, Normal tt) →
  truthy_string (BaseCommand.validateOptions this (options (world s1))) = false →
  BaseCommand.body this options s1 = (s2, Normal tt) →
  Some <$> plugins = PluginType.instance <$> chosen
  ∧ (Forall (λ e, PluginType.priority e ≠ NaN) installed →
     StronglySorted (key_le PluginType.priority) chosen)
  ∧ BaseCommand.before_calls this
    = BaseCommand.hook_calls (λ p, PluginBefore (BasePlugin.name p))
        BasePlugin.beforeExecute plugins
      ++ match BaseCommand.beforeExecute this with
         | Some _ => [CommandBefore] | None => [] end
  ∧ BaseCommand.after_calls this
    = match BaseCommand.afterExecute this with
      | Some _ => [CommandAfter] | None => [] end
      ++ BaseCommand.hook_calls (λ p, PluginAfter (BasePlugin.name p))
           BasePlugin.afterExecute plugins
  ∧ ∃ afters errs,
      calls (BaseCommand.action this options args now s).1
      = calls s ++ BaseCommand.before_calls this ++ [CommandExecute] ++ afters ++ errs
      ∧ (afters `prefix_of` BaseCommand.after_calls this)
      ∧ (errs = [] ∨ ∃ e, errs = [CommandOnError e])
      ∧ (∀ s3, BaseCommand.afterHooks this plugins context s2 = (s3, Normal tt) →
           afters = BaseCommand.after_calls this ∧ errs = []
           ∧ BaseCommand.action this options args now s = (s3, Normal tt)).
Proof.
  intros installed this context plugins names chosen Hb Hv Hbody.
  split; [apply resolve_entries, after_entries|]. split.
  { intros Hfinite. by apply StronglySorted_filter, after_sorted. }
  split; [done|]. split; [done|].
  pose proof (beforeHooks_calls _ _ _ _ _ Hb) as (evs & Hc1 & _ & Hn1).
  rewrite (Hn1 tt eq_refl) in Hc1.
  assert (calls s2 = calls s1 ++ [CommandExecute]) as Hc2.
  { unfold BaseCommand.body in Hbody. rewrite call_spec in Hbody.
    by injection Hbody as <- _. }
  pose proof (guarded_spec this options context s) as Hg.
  fold plugins in Hg. rewrite Hb, Hv, Hbody in Hg.
  destruct (BaseCommand.afterHooks this plugins context s2) as [s3 [[]|e]] eqn:Ha;
    pose proof (afterHooks_calls _ _ _ _ _ Ha) as (afters & Hc3 & Hp & Hn3).
  - exists afters, []. rewrite (action_completed _ _ _ _ _ _ Hg). cbn [fst].
    split; [by rewrite Hc3, Hc2, Hc1, app_nil_r, <- !app_assoc|].
    split; [done|]. split; [by left|].
    intros s3' [= <-]. by rewrite (Hn3 tt eq_refl).
  - exists afters, [CommandOnError e].
    rewrite (action_caught _ _ _ _ _ _ _ Hg), handler_spec. cbn [fst calls].
    split; [by rewrite Hc3, Hc2, Hc1, <- !app_assoc|].
    split; [done|]. split; [right; by exists e|]. intros s3' [=].
Qed.

(** C3 at [examples/]: the whole bracket, with nothing thrown. *)
Lemma hooks_bracket_the_command_witness :
  let installed := CommandProgram.plugins
                     (CommandProgram.after
                        [CommandProgram.CallInstall Examples.timer false;
                         CommandProgram.CallInstall Examples.logger false]) in
  let this := BaseCommand.new Examples.build
                [BasePlugin.new Examples.logger; BasePlugin.new Examples.timer] in
  Forall (λ e, PluginType.priority e ≠ NaN) installed
  ∧ StronglySorted (key_le PluginType.priority)
      (List.filter (λ e, includes [lit "logger"; lit "timer"] (PluginType.name e))
         installed)
  ∧ ∃ afters errs,
      calls (BaseCommand.action this Examples.opts [Object] 0 (Examples.parsed ∅)).1
      = [PluginBefore (lit "logger"); PluginBefore (lit "timer"); CommandBefore]
        ++ [CommandExecute] ++ afters ++ errs
      ∧ afters = [CommandAfter; PluginAfter (lit "logger"); PluginAfter (lit "timer")]
      ∧ errs = [].
Proof.
  intros installed this.
  pose (context := BaseCommand.context_of this Examples.opts [Object] 0).
  pose (s := Examples.parsed ∅).
  pose (s1 := (BaseCommand.beforeHooks this (BaseCommand.getPlugins this) context s).1).
  pose (s2 := (BaseCommand.body this Examples.opts s1).1).
  pose (s3 := (BaseCommand.afterHooks this (BaseCommand.getPlugins this) context s2).1).
  assert (Forall (λ e, PluginType.priority e ≠ NaN) installed) as Hfinite.
  { repeat constructor; discriminate. }
  destruct (hooks_bracket_the_command
              [CommandProgram.CallInstall Examples.timer false;
               CommandProgram.CallInstall Examples.logger false]
              Examples.build Examples.opts [Object] 0 s s1 s2 eq_refl eq_refl eq_refl)
    as (_ & Hsorted & _ & _ & afters & errs & Hcalls & _ & _ & Hfull).
  split; [exact Hfinite|]. split; [exact (Hsorted Hfinite)|].
  exists afters, errs. destruct (Hfull s3 eq_refl) as (Hafters & Herrs & _).
  split; [exact Hcalls|]. split; [exact Hafters | exact Herrs].
Defined.

(** C3, as stated, fails when a priority is [NaN]: with plugins of the
    priorities 2, [NaN], 1, installed in this order, the hooks of the
    plugin of priority 2 run before those of the plugin of priority 1. *)
Lemma hooks_follow_the_list_with_nan :
  let shape := Examples.installed
                 [MoreExamples.ranked "a" (Num 2); MoreExamples.ranked "n" NaN;
                  MoreExamples.ranked "b" (Num 1)]
                 [Examples.test_with [lit "a"; lit "b"]] in
  let run := CommandProgram.dispatch shape (lit "test") Examples.opts [Object] 0 in
  let options : gmap jsstring value := {[ lit "name" := Str (lit "x") ]} in
  List.map (λ e, (PluginType.name e, PluginType.priority e))
    (CommandProgram.plugins shape)
  = [(lit "a", Num 2); (lit "n", NaN); (lit "b", Num 1)]
  ∧ Examples.calls_of options run
    = [PluginBefore (lit "a"); PluginBefore (lit "b"); CommandExecute;
       PluginAfter (lit "a"); PluginAfter (lit "b")]
  ∧ Examples.outcome_of options run = Normal tt.
Proof. intros shape run options. split; [|split]; reflexivity. Qed.




(** C7: an error raised by the validation or by the body of the command is
    handed to [onError] with the context; when [onError] answers [true] the
    action returns normally, and when it answers [false] the same error is
    thrown again.  The inherited [onError] answers [false]. *)
Theorem onError_absorbs_or_rethrows {W Exn}
    (this : BaseCommand.t W Exn) (options : OptionValues W)
    (args : list value) (now : Z) (s s1 s2 : state W Exn) (e : thrown Exn) :
  let context := BaseCommand.context_of this options args now in
  BaseCommand.beforeHooks this (BaseCommand.getPlugins this) context s
  = (s1, Normal tt) →
  (BaseCommand.validation this options s1 = (s2, Throw e)
   ∨ (BaseCommand.validation this options s1 = (s1, Normal tt)
      ∧ BaseCommand.body this options s1 = (s2, Throw e))) →
  let answer := BaseCommand.onError this e context (world s2) in
  calls (BaseCommand.action this options args now s).1
  = calls s2 ++ [CommandOnError e]
  ∧ world (BaseCommand.action this options args now s).1 = answer.1
  ∧ (answer.2 = Normal true →
       (BaseCommand.action this options args now s).2 = Normal tt)
  ∧ (answer.2 = Normal false →
       (BaseCommand.action this options args now s).2 = Throw e)
  ∧ (∀ console_error,
       BaseCommand.onError this = BaseCommand.base_onError console_error →
       (BaseCommand.action this options args now s).2 = Throw e).
Proof.
  intros context Hb Hraised answer.
  assert (BaseCommand.guarded this options context s = (s2, Throw e)) as Hg.
  { rewrite guarded_spec, Hb. rewrite validation_spec in Hraised.
    destruct (truthy_string (BaseCommand.validateOptions this (options (world s1)))).
    - destruct Hraised as [[= <- <-]|[[=] _]]. done.
    - destruct Hraised as [[=]|[_ ->]]. done. }
  rewrite (action_caught _ _ _ _ _ _ _ Hg), handler_spec. fold context answer.
  cbn [fst snd calls world]. split; [done|]. split; [done|].
  split; [by intros ->|]. split; [by intros ->|].
  intros console_error Hbase. unfold answer. by rewrite Hbase.
Qed.

(** C6: the lookup key of a flag [--name placeholder] is [name].
    [validateOptions] first goes through the option specs in order and
    answers with the message that names the flag of the first required one
    whose key has no value; the custom validator has no part in that answer,
    which is the same for any command with these option specs.  When no
    required option is missing it answers what the validator answers, or
    [null] without a validator.  The action raises a non-empty answer as it
    is, as the message of the error, and does not call [execute]. *)
Theorem validateOptions_order {W Exn}
    (this : BaseCommand.t W Exn) (held : gmap jsstring value)
    (options : OptionValues W) (args : list value) (now : Z) :
  let defs := CommandArgs.options (BaseCommand.args this) in
  let context := BaseCommand.context_of this options args now in
  (∀ name placeholder,
     Forall (λ c, is_space c = false) name →
     BaseCommand.extractOptionName (lit "--" ++ name ++ lit " " ++ placeholder) = name
     ∧ BaseCommand.extractOptionName (lit "--" ++ name) = name)
  ∧ (∀ pre option post,
     defs = pre ++ option :: post →
     Forall (λ o, BaseCommand.missing held o = false) pre →
     BaseCommand.missing held option = true →
     BaseCommand.validateOptions this held
     = Some ([36873; 39033; 32]%N ++ CommandOption.flag option
             ++ [32; 26159; 24517; 22635; 30340]%N))
  ∧ (∀ option (other : BaseCommand.t W Exn),
       option ∈ defs → BaseCommand.missing held option = true →
       CommandArgs.options (BaseCommand.args other) = defs →
       BaseCommand.validateOptions other held
       = BaseCommand.validateOptions this held)
  ∧ (Forall (λ o, BaseCommand.missing held o = false) defs →
     BaseCommand.validateOptions this held
     = match CommandArgs.validate (BaseCommand.args this) with
       | Some validate => validate held
       | None => None
       end)
  ∧ (∀ message s s1,
       BaseCommand.validateOptions this (options (world s1)) = Some message →
       message ≠ [] →
       BaseCommand.beforeHooks this (BaseCommand.getPlugins this) context s
       = (s1, Normal tt) →
       BaseCommand.guarded this options context s = (s1, Throw (Error message))
       ∧ calls s1 = calls s ++ BaseCommand.before_calls this
       ∧ CommandExecute ∉ BaseCommand.before_calls this).
Proof.
  intros defs context. split; [apply extractOptionName_long|].
  split; [|split; [|split]].
  - intros pre option post Hdefs Hpre Hm. unfold BaseCommand.validateOptions.
    fold defs. rewrite Hdefs. by rewrite (checkRequired_first _ _ _ _ Hpre Hm).
  - intros option other Hin Hm Hother.
    destruct (checkRequired_missing _ _ _ Hin Hm) as (o & _ & _ & Hc).
    unfold BaseCommand.validateOptions. rewrite Hother. fold defs. by rewrite Hc.
  - intros Hall%checkRequired_None. unfold BaseCommand.validateOptions.
    fold defs. by rewrite Hall.
  - intros message s s1 Hv Hne Hb. rewrite guarded_spec, Hb, Hv.
    destruct message as [|c message]; [done|]. split; [done|].
    pose proof (beforeHooks_calls _ _ _ _ _ Hb) as (evs & Hc & _ & Hn).
    rewrite (Hn tt eq_refl) in Hc. split; [done|]. apply before_calls_no_execute.
Qed.

(** C10: a required option counts as missing exactly when the value read
    for its key is [undefined] (also when the key is absent) or [null];
    [false], [0] and the empty string count as present, so a required flag
    parsed as [false] passes. *)
Theorem missing_iff_nullish (options : gmap jsstring value) (option : CommandOption.t) :
  let key := BaseCommand.extractOptionName (CommandOption.flag option) in
  (BaseCommand.missing options option = true
   ↔ CommandOption.required option = Some true
     ∧ (options !! key = None ∨ options !! key = Some Undefined
        ∨ options !! key = Some Null))
  ∧ (∀ v, v ∈ [Bool false; Number 0; Str []] → options !! key = Some v →
       BaseCommand.missing options option = false
       ∧ ∀ W Exn (this : BaseCommand.t W Exn),
           CommandArgs.options (BaseCommand.args this) = [option] →
           CommandArgs.validate (BaseCommand.args this) = None →
           BaseCommand.validateOptions this options = None).
Proof.
  intros key. split.
  - unfold BaseCommand.missing, get. fold key.
    rewrite andb_true_iff. unfold truthy_flag.
    destruct (CommandOption.required option) as [[]|],
      (options !! key) as [[]|]; simpl; intuition congruence.
  - intros v Hv Hk.
    assert (BaseCommand.missing options option = false) as Hm.
    { unfold BaseCommand.missing, get. fold key. rewrite Hk. simpl.
      assert (eq_null v = false) as ->; [|by rewrite andb_false_r].
      repeat (apply elem_of_cons in Hv as [->|Hv]; [done|]).
      by apply elem_of_nil in Hv. }
    split; [done|]. intros W Exn this Hdefs Hvalidate.
    unfold BaseCommand.validateOptions. rewrite Hdefs, Hvalidate. simpl.
    by rewrite Hm.
Qed.

(** ** The scenario of [examples/]: [build] with [logger] and [timer] *)

Section ScenarioFacts.
Context {W Exn : Type}.
Variables (fl ft : bool).
Variables (logger_before logger_after timer_before timer_after
           : CommandContext.t W → user W Exn unit).

Local Abbreviation logger50 := (Scenario.logger50 fl logger_before logger_after).
Local Abbreviation timer100 := (Scenario.timer100 ft timer_before timer_after).
Local Abbreviation scenario :=
  (Scenario.scenario fl ft logger_before logger_after timer_before timer_after).

Lemma scenario_dispatch timer_first command :
  CommandProgram.dispatch (scenario timer_first command)
    (BaseCommand.static_name command)
  = BaseCommand.action
      (BaseCommand.new command [BasePlugin.new logger50; BasePlugin.new timer100]).
Proof.
  unfold scenario, CommandProgram.dispatch, CommandProgram.after.
  rewrite foldl_app. cbn [foldl].
  set (shape := foldl CommandProgram.step CommandProgram.initial _).
  assert (Normal <$> CommandProgram.plugins shape
          = [CommandProgram.entry logger50; CommandProgram.entry timer100]
          ∧ CommandProgram.commands shape = ∅) as [Hp Hc].
  { unfold shape. by destruct timer_first. }
  assert (omap PluginType.instance (CommandProgram.plugins shape)
          = [BasePlugin.new logger50; BasePlugin.new timer100]) as Hinstances.
  { destruct (CommandProgram.plugins shape) as [|e1 [|e2 [|e3 l]]]; try done.
    by injection Hp as -> ->. }
  clearbody shape.
  assert (CommandProgram.step shape
            (CommandProgram.CallUse command (BaseCommand.force command))
          = {| CommandProgram.plugins := CommandProgram.plugins shape;
               CommandProgram.commands :=
                 <[BaseCommand.static_name command :=
                     {| CommandType.name := BaseCommand.static_name command;
                        CommandType.command := command;
                        CommandType.instance := None;
                        CommandType.group := None |}]> ∅ |}) as ->.
  { unfold CommandProgram.step, CommandProgram.use. rewrite Hc, lookup_empty.
    by rewrite bool_decide_eq_false_2 by (by intros [? ?]). }
  erewrite run_binds; [|apply lookup_insert_eq|done].
  cbn [CommandProgram.plugins CommandType.command]. by rewrite Hinstances.
Qed.

End ScenarioFacts.

Section AllNormal.
Context {W Exn : Type}.
Implicit Types (this : BaseCommand.t W Exn) (s : state W Exn).

Import BaseCommand.

Lemma call_opt_Normal {C} (ev : event Exn) (hook : option (C → user W Exn unit))
    (c : C) s :
  (∀ h, hook = Some h → ∀ w, (h c w).2 = Normal tt) →
  ∃ w, call_opt ev hook c s
       = (State w (calls s ++ match hook with Some _ => [ev] | None => [] end),
          Normal tt).
Proof.
  intros Hh. unfold call_opt. destruct hook as [h|].
  - rewrite call_spec, (Hh h eq_refl). by eexists.
  - exists (world s). unfold mret, M_ret. rewrite app_nil_r. by destruct s.
Qed.

(** When nothing throws and the options are valid when the before-hooks
    are through, the action makes all of its calls and completes. *)
Lemma action_all_normal this (options : OptionValues W) args now s :
  let context := context_of this options args now in
  Forall (λ p, ∀ h, BasePlugin.beforeExecute p = Some h →
                    ∀ w, (h context w).2 = Normal tt) (getPlugins this) →
  Forall (λ p, ∀ h, BasePlugin.afterExecute p = Some h →
                    ∀ w, (h context w).2 = Normal tt) (getPlugins this) →
  (∀ h, beforeExecute this = Some h → ∀ w, (h context w).2 = Normal tt) →
  (∀ h, afterExecute this = Some h → ∀ w, (h context w).2 = Normal tt) →
  (∀ w, (execute this options w).2 = Normal tt) →
  (∀ s1, beforeHooks this (getPlugins this) context s = (s1, Normal tt) →
         truthy_string (validateOptions this (options (world s1))) = false) →
  ∃ w, action this options args now s
       = (State w (calls s ++ before_calls this ++ [CommandExecute]
                   ++ after_calls this), Normal tt).
Proof.
  intros context Hpb Hpa Hcb Hca Hx Hv.
  set (context' := context_of this options args now) in *. subst context.
  rename context' into context.
  destruct (forEach_hooks_Normal (λ p, PluginBefore (BasePlugin.name p))
              BasePlugin.beforeExecute context (getPlugins this) s Hpb) as [w1 H1].
  destruct (call_opt_Normal CommandBefore (beforeExecute this) context
              (State w1 (calls s ++ hook_calls (λ p, PluginBefore (BasePlugin.name p))
                                     BasePlugin.beforeExecute (getPlugins this))) Hcb)
    as [w2 H2].
  cbn [calls] in H2. rewrite <- app_assoc in H2. fold (before_calls this) in H2.
  set (s2 := State w2 (calls s ++ before_calls this)) in *.
  set (s3 := State (execute this options (world s2)).1 (calls s2 ++ [CommandExecute])).
  destruct (call_opt_Normal CommandAfter (afterExecute this) context s3 Hca) as [w4 H4].
  set (s4 := State w4 _) in H4.
  destruct (forEach_hooks_Normal (λ p, PluginAfter (BasePlugin.name p))
              BasePlugin.afterExecute context (getPlugins this) s4 Hpa) as [w5 H5].
  assert (beforeHooks this (getPlugins this) context s = (s2, Normal tt)) as Hb.
  { unfold beforeHooks, mbind, M_bind. by rewrite H1, H2. }
  exists w5. apply action_completed. fold context.
  rewrite guarded_spec, Hb, (Hv s2 Hb).
  unfold body. rewrite call_spec, Hx. fold s3. cbv beta iota.
  unfold afterHooks, mbind, M_bind. rewrite H4, H5.
  unfold s4, s3, s2, after_calls. cbn [calls]. by rewrite <- !app_assoc.
Qed.

End AllNormal.

(** C1, amended: [logger] (priority 50) and [timer] (priority 100) are
    installed, in either order, and a command declares [logger, timer];
    invoked with options that are valid when the before-hooks are through,
    and with hooks that do not throw, it makes
    exactly the calls [logger.beforeExecute], [timer.beforeExecute], its own
    [beforeExecute], [execute], its own [afterExecute], [logger.afterExecute],
    [timer.afterExecute]: the after-hooks of the plugins run in the order of
    their before-hooks. *)
Theorem scenario_hook_order {W Exn} (fl ft timer_first : bool)
    (logger_before logger_after timer_before timer_after command_before
       command_after : CommandContext.t W → user W Exn unit)
    (command : BaseCommand.class W Exn)
    (options : OptionValues W) (args : list value) (now : Z)
    (s : state W Exn) :
  let logger := Scenario.logger50 fl logger_before logger_after in
  let timer := Scenario.timer100 ft timer_before timer_after in
  let this := BaseCommand.new command [BasePlugin.new logger; BasePlugin.new timer] in
  (∀ hook, hook ∈ [logger_before; logger_after; timer_before; timer_after;
                   command_before; command_after] →
           ∀ context w, (hook context w).2 = Normal tt) →
  (∀ w, (BaseCommand.proto_execute command options w).2 = Normal tt) →
  CommandArgs.plugins (BaseCommand.get_args command) = Some [lit "logger"; lit "timer"] →
  BaseCommand.proto_beforeExecute command = Some command_before →
  BaseCommand.proto_afterExecute command = Some command_after →
  (∀ s1, BaseCommand.beforeHooks this (BaseCommand.getPlugins this)
           (BaseCommand.context_of this options args now) s = (s1, Normal tt) →
         truthy_string (BaseCommand.validateOptions this (options (world s1)))
         = false) →
  ∃ w, CommandProgram.dispatch
         (Scenario.scenario fl ft logger_before logger_after timer_before
            timer_after timer_first command)
         (BaseCommand.static_name command) options args now s
       = (State w (calls s ++ [PluginBefore (lit "logger"); PluginBefore (lit "timer");
                               CommandBefore; CommandExecute; CommandAfter;
                               PluginAfter (lit "logger"); PluginAfter (lit "timer")]),
          Normal tt).
Proof.
  intros logger timer this Hhooks Hx Hdecl Hb Ha Hv.
  rewrite scenario_dispatch. fold logger timer this.
  assert (BaseCommand.getPlugins this = [BasePlugin.new logger; BasePlugin.new timer])
    as Hget.
  { unfold BaseCommand.getPlugins, BaseCommand.args. cbn. by rewrite Hdecl. }
  destruct (action_all_normal this options args now s) as [w Hw].
  - rewrite Hget. repeat constructor; intros h [= <-] w; apply Hhooks; set_solver.
  - rewrite Hget. repeat constructor; intros h [= <-] w; apply Hhooks; set_solver.
  - unfold BaseCommand.beforeExecute. cbn. rewrite Hb.
    intros h [= <-] w; apply Hhooks; set_solver.
  - unfold BaseCommand.afterExecute. cbn. rewrite Ha.
    intros h [= <-] w; apply Hhooks; set_solver.
  - exact Hx.
  - exact Hv.
  - exists w. rewrite Hw. unfold BaseCommand.before_calls, BaseCommand.after_calls.
    rewrite Hget. unfold BaseCommand.beforeExecute, BaseCommand.afterExecute.
    cbn. by rewrite Hb, Ha.
Qed.

(** C1, as stated, fails on the examples: after [build.afterExecute] the
    action calls [logger.afterExecute] and then [timer.afterExecute], not
    the other way round. *)
Lemma scenario_after_hooks_not_reversed :
  Examples.calls_of ∅
    (CommandProgram.dispatch (Examples.installed [Examples.logger; Examples.timer]
                                [Examples.build])
       (lit "build") Examples.opts [Object] 0)
  ≠ [PluginBefore (lit "logger"); PluginBefore (lit "timer");
     CommandBefore; CommandExecute; CommandAfter;
     PluginAfter (lit "timer"); PluginAfter (lit "logger")].
Proof. vm_compute. intros [=]. Qed.

(** ** Discovery *)

Section Discovery.
Context {W Exn : Type}.
Variable resolve : jsstring → jsstring.
Variable getName : jsstring → Cli.kind → jsstring.
Variable import : jsstring → completion Exn (Cli.file W Exn).
Implicit Types (p : Cli.process W Exn) (ps : @Cli.promises Exn).

Import Cli.

Local Abbreviation loadPlugin := (Cli.loadPlugin resolve getName import).
Local Abbreviation loadCommand := (Cli.loadCommand resolve getName import).
Local Abbreviation visit := (Cli.visit resolve getName import).
Local Abbreviation discover := (Cli.discover resolve getName import).
Local Abbreviation runjShow := (Cli.runjShow resolve getName import).

(** The promise of [loadPlugin] is never rejected. *)
Lemma loadPlugin_resolves fn p : (loadPlugin fn p).2 = Normal tt.
Proof. unfold Cli.loadPlugin. by destruct (loadPlugin_body _ _ _ fn p) as [p' [[]|e]]. Qed.

(** A command file is not a plugin file. *)
Lemma cmd_not_plugin fn :
  endsWith fn (lit ".cmd.ts") || endsWith fn (lit ".cmd.js") = true →
  endsWith fn (lit ".plugin.ts") || endsWith fn (lit ".plugin.js") = false.
Proof.
  unfold endsWith. rewrite orb_true_iff, orb_false_iff, !bool_decide_eq_true.
  rewrite !bool_decide_eq_false.
  intros Hcmd; split; intros [k2 H2]; destruct Hcmd as [[k1 H1]|[k1 H1]];
    apply (f_equal (@rev N)) in H1, H2; rewrite rev_app_distr in H1, H2;
    rewrite H1 in H2; by vm_compute in H2.
Qed.

Lemma visit_plugin fn p ps :
  endsWith fn (lit ".plugin.ts") || endsWith fn (lit ".plugin.js") = true →
  visit fn (p, ps)
  = ((loadPlugin fn p).1,
     {| pluginPromises := pluginPromises ps ++ [(loadPlugin fn p).2];
        commandPromises := commandPromises ps |}).
Proof. intros H. unfold Cli.visit. rewrite H. by destruct (loadPlugin fn p). Qed.

Lemma visit_command fn p ps :
  endsWith fn (lit ".cmd.ts") || endsWith fn (lit ".cmd.js") = true →
  visit fn (p, ps)
  = ((loadCommand fn p).1,
     {| pluginPromises := pluginPromises ps;
        commandPromises := commandPromises ps ++ [(loadCommand fn p).2] |}).
Proof.
  intros H. unfold Cli.visit. rewrite (cmd_not_plugin _ H), H.
  by destruct (loadCommand fn p).
Qed.

(** Along the walk no plugin promise is rejected, and the command promises
    only grow. *)
Lemma visit_invariant fn p ps :
  Forall (λ r, r = Normal tt) (pluginPromises ps) →
  Forall (λ r, r = Normal tt) (pluginPromises (visit fn (p, ps)).2)
  ∧ commandPromises ps `prefix_of` commandPromises (visit fn (p, ps)).2.
Proof.
  intros Hps. unfold Cli.visit.
  destruct (endsWith fn (lit ".plugin.ts") || endsWith fn (lit ".plugin.js")) eqn:Hp.
  - pose proof (loadPlugin_resolves fn p) as Hr.
    destruct (loadPlugin fn p) as [p' r]. simpl in *. subst r. split; [|done].
    apply Forall_app. by repeat constructor.
  - destruct (endsWith fn (lit ".cmd.ts") || endsWith fn (lit ".cmd.js")); [|done].
    destruct (loadCommand fn p) as [p' r]. simpl. split; [done|].
    by apply prefix_app_r.
Qed.

Lemma foldl_visit_invariant files p ps :
  Forall (λ r, r = Normal tt) (pluginPromises ps) →
  Forall (λ r, r = Normal tt)
    (pluginPromises (foldl (λ st fn, visit fn st) (p, ps) files).2)
  ∧ commandPromises ps
    `prefix_of` commandPromises (foldl (λ st fn, visit fn st) (p, ps) files).2.
Proof.
  revert p ps. induction files as [|fn files IH]; intros p ps Hps; [done|].
  cbn [foldl]. destruct (visit_invariant fn p ps Hps) as [H1 H2].
  destruct (visit fn (p, ps)) as [p' ps']. destruct (IH p' ps' H1) as [H3 H4].
  split; [done|]. by etrans.
Qed.

(** [Promise.all] over promises one of which is rejected is rejected. *)
Lemma all_rejected (l1 l2 l3 : list (completion Exn unit)) e :
  Forall (λ r, r = Normal tt) l1 →
  ∃ e', all (l1 ++ l2 ++ Throw e :: l3) = Throw e'.
Proof.
  intros Hl1. induction Hl1 as [|r l1 -> _ IH]; [|done]. simpl.
  induction l2 as [|[[]|e2] l2 IH]; simpl; eauto.
Qed.

(** [Promise.all] over promises none of which is rejected is fulfilled. *)
Lemma all_fulfilled (l : list (completion Exn unit)) :
  Forall (λ r, r = Normal tt) l → all l = Normal tt.
Proof. induction 1 as [|r l -> _ IH]; done. Qed.

End Discovery.

(** C9: when the import of a file fails, [loadPlugin] writes a warning and
    its promise is fulfilled, so that the walk goes on with the next files
    and the program is started; [loadCommand] writes an error and throws
    the error it caught, so that the discovery phase ends in that failure
    and the program is not started. *)
Theorem import_failure_asymmetry {W Exn}
    (resolve : jsstring → jsstring) (getName : jsstring → Cli.kind → jsstring)
    (import : jsstring → completion Exn (Cli.file W Exn))
    (fn : jsstring) (p : Cli.process W Exn) (e : thrown Exn) :
  let warned := {| Cli.shape := Cli.shape p;
                   Cli.console := Cli.console p ++ [Cli.Warn fn e] |} in
  let errored := {| Cli.shape := Cli.shape p;
                    Cli.console := Cli.console p ++ [Cli.Err fn e] |} in
  import (resolve fn) = Throw e →
  Cli.loadPlugin resolve getName import fn p = (warned, Normal tt)
  ∧ Cli.loadCommand resolve getName import fn p = (errored, Throw e)
  ∧ (Cli.endsWith fn (lit ".plugin.ts") || Cli.endsWith fn (lit ".plugin.js") = true →
     (∀ files,
        Cli.discover resolve getName import (fn :: files) p
        = foldl (λ st fn, Cli.visit resolve getName import fn st)
            (warned, {| Cli.pluginPromises := [Normal tt];
                        Cli.commandPromises := [] |}) files)
     ∧ Cli.runjShow resolve getName import [fn] p = (warned, Normal tt, true))
  ∧ (Cli.endsWith fn (lit ".cmd.ts") || Cli.endsWith fn (lit ".cmd.js") = true →
     Cli.runjShow resolve getName import [fn] p = (errored, Throw e, false)
     ∧ ∀ before after, ∃ p' e',
         Cli.runjShow resolve getName import (before ++ fn :: after) p
         = (p', Throw e', false)).
Proof.
  intros warned errored Himport.
  assert (Cli.loadPlugin resolve getName import fn p = (warned, Normal tt)) as Hlp.
  { unfold Cli.loadPlugin, Cli.loadPlugin_body. by rewrite Himport. }
  assert (∀ q, Cli.loadCommand resolve getName import fn q
               = ({| Cli.shape := Cli.shape q;
                     Cli.console := Cli.console q ++ [Cli.Err fn e] |}, Throw e)) as Hlc.
  { intros q. unfold Cli.loadCommand, Cli.loadCommand_body. by rewrite Himport. }
  split; [done|]. split; [apply Hlc|]. split.
  - intros Hsfx. split.
    + intros files. unfold Cli.discover. cbn [foldl].
      by rewrite visit_plugin, Hlp.
    + unfold Cli.runjShow, Cli.discover. cbn [foldl].
      by rewrite visit_plugin, Hlp.
  - intros Hsfx. split.
    + unfold Cli.runjShow, Cli.discover. cbn [foldl].
      by rewrite visit_command, Hlc.
    + intros before after. unfold Cli.runjShow, Cli.discover.
      rewrite foldl_app. cbn [foldl].
      destruct (foldl_visit_invariant resolve getName import before p
                  {| Cli.pluginPromises := []; Cli.commandPromises := [] |})
        as [Hpp _]; [constructor|].
      destruct (foldl _ _ before) as [p1 ps1]. cbn [snd] in Hpp.
      rewrite visit_command, Hlc by done. cbn [fst snd].
      destruct (foldl_visit_invariant resolve getName import after
                  {| Cli.shape := Cli.shape p1;
                     Cli.console := Cli.console p1 ++ [Cli.Err fn e] |}
                  {| Cli.pluginPromises := Cli.pluginPromises ps1;
                     Cli.commandPromises := Cli.commandPromises ps1 ++ [Throw e] |})
        as [Hpp2 [k Hcp]]; [done|].
      destruct (foldl _ _ after) as [p2 ps2]. cbn [snd Cli.commandPromises] in *.
      destruct (all_rejected (Cli.pluginPromises ps2) (Cli.commandPromises ps1) k e Hpp2)
        as [e' He'].
      exists p2, e'. rewrite Hcp, <- app_assoc. cbn [app]. by rewrite He'.
Qed.

(** ** The properties at the classes of the examples *)

(** C1 at [examples/]: [timer] installed before [logger], then [build]. *)
Lemma scenario_hook_order_witness :
  ∃ w, CommandProgram.dispatch
         (Examples.installed [Examples.timer; Examples.logger] [Examples.build])
         (lit "build") Examples.opts [Object] 0 (Examples.parsed ∅)
       = (State w [PluginBefore (lit "logger"); PluginBefore (lit "timer");
                   CommandBefore; CommandExecute; CommandAfter;
                   PluginAfter (lit "logger"); PluginAfter (lit "timer")],
          Normal tt).
Proof.
  destruct (scenario_hook_order (W:=Examples.W) (Exn:=Examples.Exn) false false true
              (λ context, Examples.log (lit "[Logger] start: " ++ CommandContext.name context))
              (λ context, Examples.log (lit "[Logger] done: " ++ CommandContext.name context))
              (λ context w, (w, Normal tt))
              (λ context, Examples.log (lit "[Timer] elapsed"))
              (λ context, Examples.log (lit "build: start"))
              (λ context, Examples.log (lit "build: done"))
              Examples.build Examples.opts [Object] 0 (Examples.parsed ∅)) as [w Hw].
  - intros hook Hin context w.
    repeat (apply elem_of_cons in Hin as [->|Hin]; [reflexivity|]).
    by apply elem_of_nil in Hin.
  - intros w. reflexivity.
  - reflexivity.
  - reflexivity.
  - reflexivity.
  - intros s1 Hs1. apply (f_equal fst) in Hs1. cbn [fst] in Hs1. subst s1.
    reflexivity.
  - exists w. exact Hw.
Defined.

(** C6 at [examples/build.cmd.ts]: [mode=staging] is rejected with the
    validator's own message. *)
Lemma validateOptions_order_witness :
  let this := BaseCommand.new Examples.build
                [BasePlugin.new Examples.logger; BasePlugin.new Examples.timer] in
  let held : gmap jsstring value := {[ lit "mode" := Str (lit "staging") ]} in
  let context := BaseCommand.context_of this Examples.opts [Object] 0 in
  BaseCommand.validateOptions this held = Some Examples.build_mode_message
  ∧ ∃ s1, BaseCommand.guarded this Examples.opts context (Examples.parsed held)
          = (s1, Throw (Error Examples.build_mode_message))
    ∧ calls s1 = [PluginBefore (lit "logger"); PluginBefore (lit "timer"); CommandBefore].
Proof.
  intros this held context.
  destruct (validateOptions_order this held Examples.opts [Object] 0)
    as (_ & _ & _ & Hvalidate & Hraise).
  split.
  - etrans; [apply Hvalidate; by repeat constructor|]. reflexivity.
  - pose (s1 := (BaseCommand.beforeHooks this (BaseCommand.getPlugins this) context
                   (Examples.parsed held)).1).
    exists s1.
    destruct (Hraise Examples.build_mode_message (Examples.parsed held) s1
                eq_refl ltac:(discriminate) eq_refl) as (Hg & Hc & _).
    split; [exact Hg | exact Hc].
Defined.

(** C7 at the tests' [TestCommand], which inherits [onError]: the
    validation failure is thrown again. *)
Lemma onError_absorbs_or_rethrows_witness :
  let this := BaseCommand.new Examples.test [] in
  let s := Examples.parsed ∅ in
  let e := Error (BaseCommand.required_message (lit "--name <value>")) in
  BaseCommand.validation this Examples.opts s = (s, Throw e)
  ∧ calls (BaseCommand.action this Examples.opts [Object] 0 s).1 = [CommandOnError e]
  ∧ (BaseCommand.action this Examples.opts [Object] 0 s).2 = Throw e.
Proof.
  intros this s e.
  assert (BaseCommand.validation this Examples.opts s = (s, Throw e)) as Hvalidation
    by reflexivity.
  destruct (onError_absorbs_or_rethrows this Examples.opts [Object] 0 s s s e eq_refl
              (or_introl Hvalidation)) as (Hcalls & _ & _ & Hfalse & _).
  split; [exact Hvalidation|]. split; [exact Hcalls|]. apply Hfalse. reflexivity.
Defined.

(** C9 at a file whose import fails. *)
Lemma import_failure_asymmetry_witness :
  let import : jsstring → completion unit (Cli.file Examples.W unit) :=
    λ fn, Throw (Error (lit "Cannot find module")) in
  let p := {| Cli.shape := CommandProgram.initial; Cli.console := [] |} in
  Cli.runjShow id (λ fn kind, fn) import [lit "a.plugin.ts"] p
  = ({| Cli.shape := CommandProgram.initial;
        Cli.console := [Cli.Warn (lit "a.plugin.ts") (Error (lit "Cannot find module"))] |},
     Normal tt, true)
  ∧ Cli.runjShow id (λ fn kind, fn) import [lit "b.cmd.ts"] p
    = ({| Cli.shape := CommandProgram.initial;
          Cli.console := [Cli.Err (lit "b.cmd.ts") (Error (lit "Cannot find module"))] |},
       Throw (Error (lit "Cannot find module")), false).
Proof.
  intros import p. split.
  - destruct (import_failure_asymmetry id (λ fn kind, fn) import (lit "a.plugin.ts") p
                (Error (lit "Cannot find module")) eq_refl) as (_ & _ & Hplugin & _).
    destruct (Hplugin eq_refl) as [_ Hrun]. exact Hrun.
  - destruct (import_failure_asymmetry id (λ fn kind, fn) import (lit "b.cmd.ts") p
                (Error (lit "Cannot find module")) eq_refl) as (_ & _ & _ & Hcmd).
    destruct (Hcmd eq_refl) as [Hrun _]. exact Hrun.
Defined.

(** C10 at a required [--verbose] parsed as [false]. *)
Lemma missing_iff_nullish_witness :
  let option := Examples.flag_option "--verbose" "-v" None (Some true) in
  BaseCommand.missing {[ lit "verbose" := Bool false ]} option = false
  ∧ BaseCommand.missing ∅ option = true.
Proof.
  intros option.
  destruct (missing_iff_nullish {[ lit "verbose" := Bool false ]} option) as [_ Hpresent].
  destruct (missing_iff_nullish ∅ option) as [Hmissing _].
  split.
  - apply (Hpresent (Bool false)); [left | reflexivity].
  - apply Hmissing. split; [reflexivity | left; reflexivity].
Defined.

(** * Further properties of the code *)

(** ** The registry: how [install], [use], [reset] and [run] behave *)

Section RegistryMore.
Context {W Exn : Type}.
Implicit Types (shape : CommandProgram.programShape W Exn).
Implicit Types (calls : list (@CommandProgram.registration W Exn)).

Import CommandProgram.

Lemma step_reset shape : step shape CallReset = initial.
Proof. done. Qed.

End RegistryMore.

(** The ways [install] can end. *)
Lemma install_cases {W Exn} (plugin : BasePlugin.class W Exn) (force : bool)
    (shape : CommandProgram.programShape W Exn) :
  let name := BasePlugin.static_name plugin in
  let taken := ∃ p, p ∈ CommandProgram.plugins shape ∧ PluginType.name p = name in
  match CommandProgram.install plugin force shape with
  | Throw e =>
      (e = Error (lit "Plugin '" ++ name ++ lit "' already exists.")
       ∧ force = false ∧ taken)
      ∨ ((force = true ∨ ¬ taken) ∧ CommandProgram.entry plugin = Throw e)
  | Normal shape' =>
      (force = true ∨ ¬ taken)
      ∧ CommandProgram.commands shape' = CommandProgram.commands shape
      ∧ ∃ item,
          CommandProgram.entry plugin = Normal item
          ∧ Permutation (CommandProgram.plugins shape')
              (CommandProgram.plugins shape ++ [item])
          ∧ length (CommandProgram.plugins shape')
            = S (length (CommandProgram.plugins shape))
  end.
Proof.
  intros name taken. unfold CommandProgram.install. fold name.
  assert (∀ item : PluginType.t W Exn,
            Permutation (sort CommandProgram.by_priority
                           (CommandProgram.plugins shape ++ [item]))
              (CommandProgram.plugins shape ++ [item])
            ∧ length (sort CommandProgram.by_priority
                        (CommandProgram.plugins shape ++ [item]))
              = S (length (CommandProgram.plugins shape))) as Hpushed.
  { intros item. pose proof (sort_Permutation CommandProgram.by_priority
                               (CommandProgram.plugins shape ++ [item])) as Hp.
    split; [exact Hp|]. rewrite (Permutation_length Hp), length_app. simpl. lia. }
  destruct (some _ (CommandProgram.plugins shape)) eqn:Hsome.
  - apply some_name_spec in Hsome. destruct force; simpl; [|by left].
    destruct (CommandProgram.entry plugin) as [item|e]; [|right; by split; [left|]].
    split; [by left|]. split; [done|]. exists item. split; [done|]. apply Hpushed.
  - assert (¬ taken) as Hfree.
    { intros Ht. apply some_name_spec in Ht. congruence. }
    simpl. destruct (CommandProgram.entry plugin) as [item|e];
      [|right; by split; [right|]].
    split; [by right|]. split; [done|]. exists item. split; [done|]. apply Hpushed.
Qed.

(** The two ways [use] can end. *)
Lemma use_cases {W Exn} (command : BaseCommand.class W Exn) (force : bool)
    (shape : CommandProgram.programShape W Exn) :
  let name := BaseCommand.static_name command in
  match CommandProgram.use command force shape with
  | Throw e =>
      e = Error (lit "Command '" ++ name ++ lit "' already exists.")
      ∧ force = false ∧ is_Some (CommandProgram.commands shape !! name)
  | Normal shape' =>
      (force = true ∨ CommandProgram.commands shape !! name = None)
      ∧ CommandProgram.plugins shape' = CommandProgram.plugins shape
      ∧ CommandProgram.commands shape' !! name
        = Some {| CommandType.name := name; CommandType.command := command;
                  CommandType.instance := None; CommandType.group := None |}
      ∧ (∀ other, other ≠ name →
           CommandProgram.commands shape' !! other
           = CommandProgram.commands shape !! other)
      ∧ size (CommandProgram.commands shape')
        = match CommandProgram.commands shape !! name with
          | Some _ => size (CommandProgram.commands shape)
          | None => S (size (CommandProgram.commands shape))
          end
  end.
Proof.
  intros name. unfold CommandProgram.use. fold name.
  assert (∀ d : CommandType.t W Exn,
            size (<[name := d]> (CommandProgram.commands shape))
            = match CommandProgram.commands shape !! name with
              | Some _ => size (CommandProgram.commands shape)
              | None => S (size (CommandProgram.commands shape))
              end) as Hsize.
  { intros d. destruct (CommandProgram.commands shape !! name) as [old|] eqn:Hold.
    - rewrite <- (insert_delete_id (CommandProgram.commands shape) _ old) at 2 by done.
      rewrite <- insert_delete_eq.
      by rewrite !map_size_insert_None by apply lookup_delete_eq.
    - by apply map_size_insert_None. }
  destruct (bool_decide (is_Some (CommandProgram.commands shape !! name))) eqn:Htaken.
  - apply bool_decide_eq_true in Htaken. destruct force; simpl; [|done].
    split; [by left|]. split; [done|]. split; [apply lookup_insert_eq|].
    split; [|apply Hsize]. intros other Hne. by apply lookup_insert_ne.
  - apply bool_decide_eq_false in Htaken. simpl.
    split; [right; by apply eq_None_not_Some|]. split; [done|].
    split; [apply lookup_insert_eq|].
    split; [|apply Hsize]. intros other Hne. by apply lookup_insert_ne.
Qed.

(** [install] refuses a name that is taken, with the conflict error, exactly
    when [force] is off, and before it runs any code of the plugin.
    Otherwise it instantiates the class and reads the priority; it throws
    what the constructor throws or, when that returns, what the getter
    throws, and nothing else.  When neither throws it adds the one new entry
    to the plugin list and leaves the commands alone. *)
Theorem install_outcome {W Exn} (plugin : BasePlugin.class W Exn) (force : bool)
    (shape : CommandProgram.programShape W Exn) :
  let name := BasePlugin.static_name plugin in
  let taken := ∃ p, p ∈ CommandProgram.plugins shape ∧ PluginType.name p = name in
  match CommandProgram.install plugin force shape with
  | Throw e =>
      (e = Error (lit "Plugin '" ++ name ++ lit "' already exists.")
       ∧ force = false ∧ taken)
      ∨ ((force = true ∨ ¬ taken)
         ∧ (BasePlugin.proto_constructor plugin = Throw e
            ∨ (BasePlugin.proto_constructor plugin = Normal tt
               ∧ BasePlugin.get_priority plugin = Throw e)))
  | Normal shape' =>
      (force = true ∨ ¬ taken)
      ∧ BasePlugin.proto_constructor plugin = Normal tt
      ∧ CommandProgram.commands shape' = CommandProgram.commands shape
      ∧ ∃ item,
          BasePlugin.get_priority plugin = Normal (PluginType.priority item)
          ∧ PluginType.name item = name
          ∧ PluginType.plugin item = plugin
          ∧ PluginType.instance item = Some (BasePlugin.new plugin)
          ∧ Permutation (CommandProgram.plugins shape')
              (CommandProgram.plugins shape ++ [item])
          ∧ length (CommandProgram.plugins shape')
            = S (length (CommandProgram.plugins shape))
  end.
Proof.
  intros name taken. pose proof (install_cases plugin force shape) as Hi.
  pose proof (entry_cases plugin) as He. cbv zeta in Hi. fold name taken in Hi.
  destruct (CommandProgram.install plugin force shape) as [shape'|e].
  - destruct Hi as (Hfree & Hcommands & item & Hitem & Hperm & Hlen).
    rewrite Hitem in He. destruct He as (Hc & Hp & Hn & Hpl & Hinst).
    split; [done|]. split; [done|]. split; [done|]. by exists item.
  - destruct Hi as [Hconflict|[Hfree Hentry]]; [by left|].
    rewrite Hentry in He. right. by split.
Qed.

(** A plugin whose [priority] getter throws is not installed, and one whose
    constructor throws is not either, [force] or not: [install] ends with
    their error. *)
Example install_boom :
  CommandProgram.install MoreExamples.boom false CommandProgram.initial
  = Throw (Error (lit "priority boom"))
  ∧ CommandProgram.install MoreExamples.stillborn true CommandProgram.initial
    = Throw (Raised tt).
Proof. split; reflexivity. Qed.

(** [use] throws only the conflict error, and exactly when the name is taken
    and [force] is off; otherwise the name maps to the new descriptor, which
    has no instance yet, every other name is as before, the plugins are
    untouched, and the number of commands grows only for a new name. *)
Theorem use_outcome {W Exn} (command : BaseCommand.class W Exn) (force : bool)
    (shape : CommandProgram.programShape W Exn) :
  let name := BaseCommand.static_name command in
  match CommandProgram.use command force shape with
  | Throw e =>
      e = Error (lit "Command '" ++ name ++ lit "' already exists.")
      ∧ force = false ∧ is_Some (CommandProgram.commands shape !! name)
  | Normal shape' =>
      (force = true ∨ CommandProgram.commands shape !! name = None)
      ∧ CommandProgram.plugins shape' = CommandProgram.plugins shape
      ∧ CommandProgram.commands shape' !! name
        = Some {| CommandType.name := name; CommandType.command := command;
                  CommandType.instance := None; CommandType.group := None |}
      ∧ (∀ other, other ≠ name →
           CommandProgram.commands shape' !! other
           = CommandProgram.commands shape !! other)
      ∧ size (CommandProgram.commands shape')
        = match CommandProgram.commands shape !! name with
          | Some _ => size (CommandProgram.commands shape)
          | None => S (size (CommandProgram.commands shape))
          end
  end.
Proof. apply use_cases. Qed.

(** Whatever was registered before, an [install] that succeeds leaves the
    entries that were there in the order they had: the new entry is put
    between them. *)
Theorem install_keeps_order {W Exn}
    (calls : list (@CommandProgram.registration W Exn))
    (plugin : BasePlugin.class W Exn) (force : bool) :
  match CommandProgram.install plugin force (CommandProgram.after calls) with
  | Normal shape' =>
      sublist (CommandProgram.plugins (CommandProgram.after calls))
        (CommandProgram.plugins shape')
      ∧ ∃ item, CommandProgram.entry plugin = Normal item
                ∧ item ∈ CommandProgram.plugins shape'
  | Throw _ => True
  end.
Proof.
  destruct (CommandProgram.install plugin force (CommandProgram.after calls))
    as [shape'|e] eqn:Hi; [|done].
  destruct (install_insert _ _ _ _ (after_settled calls) Hi) as (item & He & -> & _).
  split; [apply insert_sublist|]. exists item. split; [done|].
  apply list_elem_of_In.
  apply (Permutation_in _ (Permutation_sym (insert_Permutation _ _ _))). by left.
Qed.

(** [reset] forgets everything: what was registered before it plays no
    part in what follows, and a name that was taken can be registered again
    without [force]. *)
Theorem reset_forgets {W Exn}
    (before after : list (@CommandProgram.registration W Exn))
    (plugin : BasePlugin.class W Exn) (command : BaseCommand.class W Exn) :
  CommandProgram.after (before ++ CommandProgram.CallReset :: after)
  = CommandProgram.after after
  ∧ CommandProgram.plugins
      (CommandProgram.after (before ++ [CommandProgram.CallReset;
                                       CommandProgram.CallInstall plugin false]))
    = match CommandProgram.entry plugin with
      | Normal item => [item]
      | Throw _ => []
      end
  ∧ CommandProgram.commands
      (CommandProgram.after (before ++ [CommandProgram.CallReset;
                                       CommandProgram.CallUse command false]))
      !! BaseCommand.static_name command
    = Some {| CommandType.name := BaseCommand.static_name command;
              CommandType.command := command;
              CommandType.instance := None; CommandType.group := None |}.
Proof.
  unfold CommandProgram.after. rewrite !foldl_app. cbn [foldl].
  rewrite !step_reset. split; [done|]. split.
  { unfold CommandProgram.step, CommandProgram.install. cbn.
    by destruct (CommandProgram.entry plugin). }
  unfold CommandProgram.step, CommandProgram.use, CommandProgram.initial.
  cbn [CommandProgram.commands]. rewrite lookup_empty.
  rewrite bool_decide_eq_false_2 by (by intros [? ?]). simpl.
  apply lookup_insert_eq.
Qed.


(** A command that [run] has bound keeps the plugins of that moment: a
    plugin installed afterwards does not reach it, also when the program is
    run again. *)
Theorem late_install_not_seen {W Exn} (shape : CommandProgram.programShape W Exn)
    (plugin : BasePlugin.class W Exn) (force : bool) (name : jsstring)
    (this : BaseCommand.t W Exn) :
  CommandProgram.commands (CommandProgram.run shape) !! name
    ≫= CommandType.instance = Some this →
  match CommandProgram.install plugin force (CommandProgram.run shape) with
  | Normal shape' =>
      CommandProgram.commands (CommandProgram.run shape') !! name
        ≫= CommandType.instance = Some this
      ∧ CommandProgram.dispatch (CommandProgram.run shape') name
        = CommandProgram.dispatch (CommandProgram.run shape) name
  | Throw _ => True
  end.
Proof.
  intros Hthis.
  destruct (CommandProgram.install plugin force (CommandProgram.run shape))
    as [shape'|e] eqn:Hi; [|done].
  pose proof (run_keeps_bound _ _ _ _ _ _ Hthis Hi) as Hsame.
  split; [done|]. unfold CommandProgram.dispatch. by rewrite Hsame, Hthis.
Qed.

(** At the examples: [build] is bound while only [logger] is installed;
    [timer], installed afterwards, is not called. *)
Lemma late_install_not_seen_witness :
  let shape := CommandProgram.after
                 [CommandProgram.CallInstall Examples.logger false;
                  CommandProgram.CallUse Examples.build false] in
  ∃ shape',
    CommandProgram.install Examples.timer false (CommandProgram.run shape)
    = Normal shape'
    ∧ Examples.calls_of ∅
        (CommandProgram.dispatch (CommandProgram.run shape') (lit "build")
           Examples.opts [Object] 0)
      = [PluginBefore (lit "logger"); CommandBefore; CommandExecute; CommandAfter;
         PluginAfter (lit "logger")].
Proof.
  intros shape.
  pose proof (late_install_not_seen shape Examples.timer false (lit "build")
                (BaseCommand.new Examples.build [BasePlugin.new Examples.logger])
                eq_refl) as Hlate.
  destruct (CommandProgram.install Examples.timer false (CommandProgram.run shape))
    as [shape'|e] eqn:Hi; [|discriminate Hi].
  exists shape'. split; [reflexivity|]. destruct Hlate as [_ Hd].
  unfold Examples.calls_of. rewrite Hd. reflexivity.
Defined.

(** ** The groups of the help text *)

Section HelpFacts.
Context {W Exn : Type}.
Implicit Types (m : @Help.groups W Exn) (cmd : CommandType.t W Exn).

Import Help.

Local Abbreviation in_group :=
  (λ (k : jsstring) (cmd : CommandType.t W Exn), bool_decide (group_of cmd = k)).
Local Abbreviation D := CommandProgram.DEFAULT_GROUP.

Lemma has_get m k : has m k = true ↔ is_Some (get m k).
Proof.
  induction m as [|[k' v] m IH]; simpl.
  - split; [done|]. by intros [? ?].
  - destruct (bool_decide (k' = k)); simpl; [|done]. split; [by eexists|done].
Qed.

Lemma get_set_eq m k v : get (set m k v) k = Some v.
Proof.
  induction m as [|[k' v'] m IH]; simpl.
  - by rewrite bool_decide_eq_true_2.
  - destruct (bool_decide (k' = k)) eqn:Hk; simpl.
    + by rewrite bool_decide_eq_true_2.
    + by rewrite Hk.
Qed.

Lemma get_set_ne m k v k' : k ≠ k' → get (set m k v) k' = get m k'.
Proof.
  intros Hne. induction m as [|[k0 v0] m IH]; simpl.
  - by rewrite bool_decide_eq_false_2.
  - destruct (bool_decide (k0 = k)) eqn:Hk; simpl.
    + apply bool_decide_eq_true in Hk as ->.
      by rewrite !bool_decide_eq_false_2.
    + by rewrite IH.
Qed.

Lemma keys_set m k v :
  (set m k v).*1 = if has m k then m.*1 else m.*1 ++ [k].
Proof.
  induction m as [|[k' v'] m IH]; [done|]. cbn [set has existsb fst].
  destruct (bool_decide (k' = k)) eqn:Hk; cbn [orb].
  - apply bool_decide_eq_true in Hk. by rewrite !fmap_cons, Hk.
  - rewrite !fmap_cons, IH. fold (has m k). by destruct (has m k).
Qed.

Lemma has_keys m k : has m k = true ↔ k ∈ m.*1.
Proof.
  induction m as [|[k' v] m IH]; simpl.
  - split; [done|]. by intros ?%elem_of_nil.
  - rewrite orb_true_iff, IH, elem_of_cons, bool_decide_eq_true.
    intuition congruence.
Qed.

Lemma NoDup_keys_set m k v : NoDup m.*1 → NoDup (set m k v).*1.
Proof.
  intros Hm. rewrite keys_set. destruct (has m k) eqn:Hh; [done|].
  apply NoDup_app. split; [done|]. split; [|apply NoDup_singleton].
  intros k' Hin ->%list_elem_of_singleton. apply has_keys in Hin. congruence.
Qed.

Lemma elem_of_get m k v : NoDup m.*1 → (k, v) ∈ m ↔ get m k = Some v.
Proof.
  induction m as [|[k' v'] m IH]; simpl; intros Hm.
  - split; [by intros ?%elem_of_nil|done].
  - apply NoDup_cons in Hm as [Hk' Hm]. rewrite elem_of_cons, (IH Hm).
    destruct (bool_decide (k' = k)) eqn:Hk.
    + apply bool_decide_eq_true in Hk as ->. split.
      * intros [[= ->]|Hg]; [done|]. exfalso. apply Hk'.
        apply has_keys, has_get. by eexists.
      * intros [= ->]. by left.
    + apply bool_decide_eq_false in Hk. split; [|by right].
      intros [[= -> ->]|]; done.
Qed.

(** What [groupCommands] has built after a prefix of the commands. *)
Lemma foldl_add_invariant (todo done_ : list (CommandType.t W Exn)) m :
  NoDup m.*1 →
  (∀ k, get m k = match List.filter (in_group k) done_ with
                  | [] => None
                  | cmds => Some cmds
                  end) →
  NoDup (foldl add m todo).*1
  ∧ ∀ k, get (foldl add m todo) k
         = match List.filter (in_group k) (done_ ++ todo) with
           | [] => None
           | cmds => Some cmds
           end.
Proof.
  revert done_ m. induction todo as [|cmd todo IH]; intros done_ m Hm Hget.
  - by rewrite app_nil_r.
  - cbn [foldl]. replace (done_ ++ cmd :: todo) with ((done_ ++ [cmd]) ++ todo)
      by (by rewrite <- app_assoc).
    assert (∃ arr, get (if negb (has m (group_of cmd)) then set m (group_of cmd) [] else m)
                     (group_of cmd) = Some arr
                   ∧ arr = List.filter (in_group (group_of cmd)) done_) as (arr & Harr & ->).
    { destruct (has m (group_of cmd)) eqn:Hh; simpl.
      - apply has_get in Hh as [arr Harr]. exists arr. split; [done|].
        rewrite Hget in Harr. by destruct (List.filter _ done_); simplify_eq.
      - exists []. split; [apply get_set_eq|].
        assert (get m (group_of cmd) = None) as Hn.
        { apply eq_None_not_Some. rewrite <- has_get. congruence. }
        rewrite Hget in Hn. by destruct (List.filter _ done_). }
    apply IH.
    + unfold add. rewrite Harr. apply NoDup_keys_set.
      destruct (has m (group_of cmd)); simpl; [done|]. by apply NoDup_keys_set.
    + intros k. unfold add. rewrite Harr. rewrite List.filter_app. cbn [List.filter].
      destruct (decide (group_of cmd = k)) as [<-|Hne].
      * rewrite get_set_eq, bool_decide_eq_true_2 by done.
        by destruct (List.filter _ done_).
      * rewrite get_set_ne, bool_decide_eq_false_2, app_nil_r by done.
        destruct (has m (group_of cmd)); simpl; [apply Hget|].
        rewrite get_set_ne by done. apply Hget.
Qed.

(** The shape the sort keeps: the default group, if it is there, is last. *)
Local Abbreviation default_last :=
  (λ l : @groups W Exn,
     ∃ l0 t, l = l0 ++ t ∧ Forall (λ e, e.1 ≠ D) l0
             ∧ (t = [] ∨ ∃ d, t = [d] ∧ d.1 = D)).

Lemma insert_default_last lc (x : jsstring * list (CommandType.t W Exn)) l :
  default_last l → (x.1 = D → Forall (λ e, e.1 ≠ D) l) →
  default_last (insert (by_group lc) x l).
Proof.
  intros (l0 & t & -> & Hl0 & Ht) Hx. destruct (decide (x.1 = D)) as [HD|HD].
  - specialize (Hx HD). exists (l0 ++ t), [x]. split; [|split; [done|right; by exists x]].
    clear Hl0 Ht. induction Hx as [|y l Hy _ IH]; [done|].
    cbn [insert forallb]. unfold greater at 1, by_group at 1.
    rewrite bool_decide_eq_false_2 by done.
    rewrite bool_decide_eq_true_2 by done. simpl. by rewrite IH.
  - clear Hx. induction Hl0 as [|y l0 Hy Hl0 IH]; cbn [app].
    + destruct Ht as [->|(d & -> & Hd)]; cbn [insert forallb].
      * exists [x], []. split; [done|]. split; [by constructor|by left].
      * unfold greater, by_group. rewrite bool_decide_eq_true_2 by done. simpl.
        exists [x], [d]. split; [done|]. split; [by constructor|right; by exists d].
    + cbn [insert]. destruct (forallb _ (y :: l0 ++ t)).
      * exists (x :: y :: l0), t. split; [done|]. split; [by repeat constructor|done].
      * destruct IH as (l0' & t' & Heq & Hl0' & Ht').
        exists (y :: l0'), t'. split; [simpl; by rewrite Heq|].
        split; [by constructor|done].
Qed.

Lemma sort_default_last lc (l : @groups W Exn) :
  NoDup l.*1 → default_last (sort (by_group lc) l).
Proof.
  induction l as [|x l IH] using rev_ind; intros Hl.
  - exists [], []. split; [done|]. split; [constructor|by left].
  - rewrite fmap_app in Hl. apply NoDup_app in Hl as (Hl & Hx & _).
    unfold sort in *. rewrite foldl_app. cbn [foldl].
    apply insert_default_last; [by apply IH|]. intros HD.
    apply Forall_forall. intros e He Heq.
    apply list_elem_of_In in He.
    apply (Permutation_in _ (sort_Permutation (by_group lc) l)) in He.
    apply list_elem_of_In in He. apply (Hx e.1).
    + by apply list_elem_of_fmap_2.
    + rewrite Heq, <- HD. simpl. by left.
Qed.

End HelpFacts.

(** [groupCommands] splits the commands by their group ([default] when a
    command has none): no group appears twice, and a group holds exactly the
    commands of that group, in the order of the command map; no group is
    empty. *)
Theorem groupCommands_partition {W Exn} (commands : list (CommandType.t W Exn))
    (k : jsstring) (cmds : list (CommandType.t W Exn)) :
  NoDup (Help.groupCommands commands).*1
  ∧ ((k, cmds) ∈ Help.groupCommands commands
     ↔ cmds ≠ []
       ∧ cmds = List.filter (λ cmd, bool_decide (Help.group_of cmd = k)) commands).
Proof.
  destruct (foldl_add_invariant commands [] ([] : @Help.groups W Exn))
    as [Hnodup Hget]; [constructor|done|].
  fold (Help.groupCommands commands) in Hnodup, Hget. split; [done|].
  rewrite (elem_of_get _ _ _ Hnodup), Hget. simpl.
  destruct (List.filter _ commands) as [|c cs]; split.
  - done.
  - by intros [? ->].
  - by intros [= <-].
  - by intros [_ ->].
Qed.

(** The groups are shown with the default group last, whatever the
    platform's [localeCompare] is, and none is lost. *)
Theorem sortedGroups_default_last {W Exn} (localeCompare : jsstring → jsstring → Z)
    (commands : list (CommandType.t W Exn)) :
  let grouped := Help.groupCommands commands in
  let sorted := Help.sortedGroups localeCompare grouped in
  Permutation sorted grouped
  ∧ ∀ cmd, cmd ∈ commands → Help.group_of cmd = CommandProgram.DEFAULT_GROUP →
      last sorted
      = Some (CommandProgram.DEFAULT_GROUP,
              List.filter (λ cmd, bool_decide (Help.group_of cmd
                                               = CommandProgram.DEFAULT_GROUP)) commands).
Proof.
  intros grouped sorted.
  assert (Permutation sorted grouped) as Hperm by apply sort_Permutation.
  split; [done|]. intros cmd Hin Hnone.
  pose proof (Hinvariant := foldl_add_invariant commands []
                ([] : @Help.groups W Exn)).
  destruct Hinvariant as [Hnodup Hget]; [constructor|done|].
  fold (Help.groupCommands commands) in Hnodup, Hget. fold grouped in Hnodup, Hget.
  set (cmds := List.filter (λ cmd, bool_decide (Help.group_of cmd
                                                = CommandProgram.DEFAULT_GROUP)) commands).
  assert ((CommandProgram.DEFAULT_GROUP, cmds) ∈ grouped) as Hd.
  { apply (elem_of_get _ _ _ Hnodup). rewrite Hget. simpl. fold cmds.
    assert (cmd ∈ cmds) as Hc.
    { apply list_elem_of_In, filter_In. split; [by apply list_elem_of_In|].
      by apply bool_decide_eq_true. }
    destruct cmds; [by apply elem_of_nil in Hc|done]. }
  destruct (sort_default_last localeCompare grouped Hnodup)
    as (l0 & t & Hs & Hl0 & Ht).
  fold (Help.sortedGroups localeCompare grouped) in Hs. fold sorted in Hs.
  assert ((CommandProgram.DEFAULT_GROUP, cmds) ∈ sorted) as Hds by (by rewrite Hperm).
  rewrite Hs in Hds |- *. apply elem_of_app in Hds as [Hds|Hds].
  { rewrite Forall_forall in Hl0. by destruct (Hl0 _ Hds). }
  destruct Ht as [->|(d & -> & HdD)]; [by apply elem_of_nil in Hds|].
  apply list_elem_of_singleton in Hds as <-. by rewrite last_snoc.
Qed.

(** ** The action: what is called, whatever throws *)

Section LifecycleMore.
Context {W Exn : Type}.
Implicit Types (this : BaseCommand.t W Exn) (s : state W Exn).
Implicit Types (options : OptionValues W) (context : CommandContext.t W).

Import BaseCommand.

Lemma hook_calls_kind {A C} (ev : A → event Exn)
    (hook : A → option (C → user W Exn unit)) (P : event Exn → Prop) (l : list A) :
  (∀ x, P (ev x)) → Forall P (hook_calls ev hook l).
Proof.
  intros HP. unfold hook_calls. apply Forall_forall.
  intros e (x & _ & Hin)%list_elem_of_In%in_flat_map.
  destruct (hook x); [|done]. by destruct Hin as [<-|[]].
Qed.

Lemma before_calls_kind this :
  Forall (λ ev, Calls.is_after ev = false ∧ Calls.is_onError ev = false)
    (before_calls this).
Proof.
  unfold before_calls. apply Forall_app. split.
  - by apply hook_calls_kind.
  - destruct (beforeExecute this); by repeat constructor.
Qed.

Lemma after_calls_kind this :
  Forall (λ ev, Calls.is_onError ev = false) (after_calls this).
Proof.
  unfold after_calls. apply Forall_app. split.
  - destruct (afterExecute this); by repeat constructor.
  - by apply hook_calls_kind.
Qed.

Lemma body_calls this options s :
  calls (body this options s).1 = calls s ++ [CommandExecute].
Proof. unfold body. by rewrite call_spec. Qed.

(** The calls of the [try] block are always an initial part of the full
    sequence, and all of it when the block completes. *)
Lemma guarded_calls this options context s :
  ∃ evs,
    calls (guarded this options context s).1 = calls s ++ evs
    ∧ evs `prefix_of` before_calls this ++ [CommandExecute] ++ after_calls this
    ∧ (∀ a, (guarded this options context s).2 = Normal a →
         evs = before_calls this ++ [CommandExecute] ++ after_calls this).
Proof.
  rewrite guarded_spec.
  destruct (beforeHooks this (getPlugins this) context s) as [s1 [[]|e]] eqn:Hb;
    pose proof (beforeHooks_calls _ _ _ _ _ Hb) as (evs1 & Hc1 & Hp1 & Hn1).
  2:{ exists evs1. split; [done|]. split; [by apply prefix_app_r|done]. }
  rewrite (Hn1 tt eq_refl) in Hc1.
  destruct (truthy_string (validateOptions this (options (world s1)))).
  { eexists. split; [exact Hc1|]. split; [by apply prefix_app_r|done]. }
  pose proof (body_calls this options s1) as Hc2.
  destruct (body this options s1) as [s2 [[]|e]] eqn:Hbody; cbn [fst] in Hc2.
  2:{ exists (before_calls this ++ [CommandExecute]). cbn [fst snd].
      split; [by rewrite Hc2, Hc1, <- app_assoc|]. split; [|done].
      rewrite (app_assoc _ [CommandExecute]). by apply prefix_app_r. }
  destruct (afterHooks this (getPlugins this) context s2) as [s3 r] eqn:Ha.
  pose proof (afterHooks_calls _ _ _ _ _ Ha) as (evs3 & Hc3 & Hp3 & Hn3).
  exists (before_calls this ++ [CommandExecute] ++ evs3). cbn [fst snd].
  split; [by rewrite Hc3, Hc2, Hc1, <- !app_assoc|]. split.
  - by apply prefix_app, prefix_app.
  - intros a ->. destruct a. by rewrite (Hn3 tt eq_refl).
Qed.

(** What the [try] block calls when it fails before the after-hooks. *)
Lemma guarded_calls_early this options context s :
  (∀ s1 s2, beforeHooks this (getPlugins this) context s = (s1, Normal tt) →
            truthy_string (validateOptions this (options (world s1))) = false →
            body this options s1 = (s2, Normal tt) → False) →
  ∃ evs e,
    guarded this options context s
    = (State (world (guarded this options context s).1) (calls s ++ evs), Throw e)
    ∧ Forall (λ ev, Calls.is_after ev = false ∧ Calls.is_onError ev = false) evs.
Proof.
  intros Hnot. rewrite guarded_spec.
  pose proof (before_calls_kind this) as Hkind.
  destruct (beforeHooks this (getPlugins this) context s) as [s1 [[]|e]] eqn:Hb;
    pose proof (beforeHooks_calls _ _ _ _ _ Hb) as (evs1 & Hc1 & [k Hp1] & Hn1).
  2:{ exists evs1, e. destruct s1 as [w1 c1]. cbn in *. subst c1. split; [done|].
      rewrite Hp1 in Hkind. by apply Forall_app in Hkind as [? _]. }
  rewrite (Hn1 tt eq_refl) in Hc1.
  destruct (truthy_string (validateOptions this (options (world s1)))) eqn:Hv.
  { destruct s1 as [w1 c1]. cbn in *. subst c1. eexists _, _. split; done. }
  pose proof (body_calls this options s1) as Hc2.
  destruct (body this options s1) as [s2 [[]|e]] eqn:Hbody; cbn [fst] in Hc2.
  { by destruct (Hnot s1 s2). }
  exists (before_calls this ++ [CommandExecute]), e.
  destruct s2 as [w2 c2]. cbn in *. subst c2. rewrite Hc1, <- app_assoc.
  split; [done|]. apply Forall_app. split; [done|]. by repeat constructor.
Qed.

End LifecycleMore.

(** In every invocation the calls are an initial part of the sequence
    before-hooks, [execute], after-hooks, followed by at most one call of
    [onError], which is then the last call.  The whole sequence without
    [onError] means the action returned; and an error leaves the action
    only after [onError] has been called. *)
Theorem action_calls_shape {W Exn} (this : BaseCommand.t W Exn)
    (options : OptionValues W) (args : list value) (now : Z) (s : state W Exn) :
  let full := BaseCommand.before_calls this ++ [CommandExecute]
              ++ BaseCommand.after_calls this in
  let result := BaseCommand.action this options args now s in
  ∃ evs,
    evs `prefix_of` full
    ∧ Forall (λ ev, Calls.is_onError ev = false) evs
    ∧ ((calls result.1 = calls s ++ evs ∧ evs = full ∧ result.2 = Normal tt)
       ∨ ∃ e, calls result.1 = calls s ++ evs ++ [CommandOnError e]
              ∧ (result.2 = Normal tt ∨ result.2 = Throw e
                 ∨ ∃ e', result.2 = Throw e'
                         ∧ (BaseCommand.onError this e
                              (BaseCommand.context_of this options args now)
                              (world (BaseCommand.guarded this options
                                        (BaseCommand.context_of this options args now)
                                        s).1)).2 = Throw e')).
Proof.
  intros full result.
  set (context := BaseCommand.context_of this options args now).
  destruct (guarded_calls this options context s) as (evs & Hc & Hp & Hn).
  exists evs. split; [done|]. split.
  { destruct Hp as [k Hk]. unfold full in *.
    assert (Forall (λ ev, Calls.is_onError ev = false)
              (BaseCommand.before_calls this ++ [CommandExecute]
               ++ BaseCommand.after_calls this)) as Hall.
    { apply Forall_app. split.
      - eapply Forall_impl; [apply before_calls_kind|]. by intros ev [_ ?].
      - apply Forall_app. split; [by repeat constructor|apply after_calls_kind]. }
    rewrite Hk in Hall. by apply Forall_app in Hall as [? _]. }
  subst result. unfold BaseCommand.action, try_catch. fold context.
  destruct (BaseCommand.guarded this options context s) as [s' [[]|e]] eqn:Hg;
    cbn [fst snd] in *.
  - left. split; [done|]. split; [by apply (Hn tt)|done].
  - right. exists e. rewrite handler_spec. cbn [fst snd calls].
    split; [by rewrite Hc, <- app_assoc|].
    destruct (BaseCommand.onError this e context (world s')) as [w [[]|e']];
      cbn [snd]; eauto.
Qed.

(** An after-hook is called only when the before-hooks, the validation and
    [execute] have all completed: a failure before that point skips every
    after-hook, the plugins' as well as the command's. *)
Theorem after_hooks_only_after_success {W Exn} (this : BaseCommand.t W Exn)
    (options : OptionValues W) (args : list value) (now : Z) (s : state W Exn)
    (evs : list (event Exn)) (ev : event Exn) :
  let context := BaseCommand.context_of this options args now in
  calls (BaseCommand.action this options args now s).1 = calls s ++ evs →
  ev ∈ evs → Calls.is_after ev = true →
  ∃ s1 s2,
    BaseCommand.beforeHooks this (BaseCommand.getPlugins this) context s
    = (s1, Normal tt)
    ∧ BaseCommand.validateOptions this (options (world s1)) ∈ [None; Some []]
    ∧ BaseCommand.body this options s1 = (s2, Normal tt).
Proof.
  intros context Hcalls Hin Hafter.
  destruct (BaseCommand.beforeHooks this (BaseCommand.getPlugins this) context s)
    as [s1 r1] eqn:Hb.
  destruct (BaseCommand.body this options s1) as [s2 r2] eqn:Hbody.
  set (valid := truthy_string (BaseCommand.validateOptions this (options (world s1)))).
  assert ((r1 = Normal tt ∧ r2 = Normal tt ∧ valid = false)
          ∨ ¬ (r1 = Normal tt ∧ r2 = Normal tt ∧ valid = false))
    as [(-> & -> & Hv)|Hno].
  { destruct r1 as [[]|e1], r2 as [[]|e2], valid;
      (by left) || (right; by intros (? & ? & ?)). }
  { exists s1, s2. split; [done|]. split; [|done]. unfold valid in Hv.
    destruct (BaseCommand.validateOptions this (options (world s1))) as [[|c m]|];
      [set_solver|done|set_solver]. }
  exfalso.
  destruct (guarded_calls_early this options context s) as (evs' & e & Hg & Hkind).
  { intros s1' s2' Hb' Hv' Hbody'. rewrite Hb in Hb'. injection Hb' as <- ->.
    rewrite Hbody in Hbody'. injection Hbody' as <- ->. by apply Hno. }
  rewrite (action_caught _ _ _ _ _ _ _ Hg), handler_spec in Hcalls.
  cbn [fst calls] in Hcalls. rewrite <- app_assoc in Hcalls.
  apply app_inv_head in Hcalls. subst evs.
  apply elem_of_app in Hin as [Hin|Hin%list_elem_of_singleton].
  - rewrite Forall_forall in Hkind. destruct (Hkind _ Hin). congruence.
  - by subst ev.
Qed.

(** At a command whose [execute] throws: its [afterExecute] and the one of
    [logger] are not called. *)
Lemma after_hooks_only_after_success_witness :
  let this := BaseCommand.new MoreExamples.broken [BasePlugin.new Examples.logger] in
  calls (BaseCommand.action this Examples.opts [Object] 0 (Examples.parsed ∅)).1
  = [] ++ [PluginBefore (lit "logger"); CommandExecute; CommandOnError (Raised tt)]
  ∧ ∀ ev, ev ∈ [PluginBefore (lit "logger"); CommandExecute;
                @CommandOnError Examples.Exn (Raised tt)] →
          Calls.is_after ev = false.
Proof.
  intros this. split; [reflexivity|]. intros ev Hin.
  destruct (Calls.is_after ev) eqn:Hafter; [|reflexivity].
  destruct (after_hooks_only_after_success this Examples.opts [Object] 0
              (Examples.parsed ∅)
              [PluginBefore (lit "logger"); CommandExecute; CommandOnError (Raised tt)]
              ev eq_refl Hin Hafter) as (s1 & s2 & Hb & _ & Hbody).
  injection Hb as <-. discriminate Hbody.
Defined.

(** A validator that answers with the empty string does not stop the
    command: the action takes the answer for "valid" and calls [execute]. *)
Theorem empty_validation_message_passes {W Exn} (this : BaseCommand.t W Exn)
    (options : OptionValues W) (args : list value) (now : Z)
    (s s1 : state W Exn) :
  let context := BaseCommand.context_of this options args now in
  BaseCommand.validateOptions this (options (world s1)) = Some [] →
  BaseCommand.beforeHooks this (BaseCommand.getPlugins this) context s
  = (s1, Normal tt) →
  ∃ rest,
    calls (BaseCommand.action this options args now s).1
    = calls s1 ++ CommandExecute :: rest.
Proof.
  intros context Hv Hb. apply action_after_validation; [done|]. by rewrite Hv.
Qed.

Lemma empty_validation_message_passes_witness :
  let this := BaseCommand.new MoreExamples.silent [] in
  let held : gmap jsstring value := {[ lit "name" := Str (lit "x") ]} in
  BaseCommand.validateOptions this held = Some []
  ∧ ∃ rest,
      calls (BaseCommand.action this Examples.opts [Object] 0 (Examples.parsed held)).1
      = [] ++ CommandExecute :: rest.
Proof.
  intros this held. split; [reflexivity|].
  exact (empty_validation_message_passes this Examples.opts [Object] 0
           (Examples.parsed held) (Examples.parsed held) eq_refl eq_refl).
Defined.

(** The lookup key of a flag has no white space in it, so that [trim] has
    nothing to do; it is an initial part of the flag without its first one
    or two dashes.  A third dash stays, and a flag that starts with white
    space has the empty key. *)
Theorem extractOptionName_shape (flag rest : jsstring) (c : N) :
  let key := BaseCommand.extractOptionName flag in
  Forall (λ c, is_space c = false) key
  ∧ key = take_until_space (strip_dashes flag)
  ∧ key `prefix_of` strip_dashes flag
  ∧ BaseCommand.extractOptionName (lit "---" ++ rest)
    = lit "-" ++ BaseCommand.extractOptionName (lit "--" ++ rest)
  ∧ (is_space c = true → BaseCommand.extractOptionName (c :: rest) = []).
Proof.
  intros key.
  assert (∀ s, Forall (λ c, is_space c = false) (take_until_space s)) as Hno.
  { induction s as [|d s IH]; simpl; [done|].
    destruct (is_space d) eqn:Hd; by constructor. }
  assert (∀ s, take_until_space s `prefix_of` s) as Hpre.
  { induction s as [|d s IH]; simpl; [done|].
    destruct (is_space d); [apply prefix_nil | by apply prefix_cons]. }
  assert (∀ f, BaseCommand.extractOptionName f = take_until_space (strip_dashes f))
    as Hkey.
  { intros f. unfold BaseCommand.extractOptionName, split_spaces_first.
    by apply trim_no_space. }
  subst key. rewrite !Hkey. split; [done|]. split; [done|]. split; [done|].
  split; [done|]. intros Hc.
  assert (strip_dashes (c :: rest) = c :: rest) as ->.
  { destruct (decide (c = 45%N)) as [->|Hne]; [by vm_compute in Hc|].
    destruct c as [|p]; [done|]. simpl.
    do 6 (try (destruct p as [p|p|]; try done)). }
  simpl. by rewrite Hc.
Qed.

(** ** [init]: what the parser is told *)

(** [init] registers one option per option spec, in the order of the specs,
    as required exactly when the spec is marked required; the flags it
    passes end with the spec's flag, after the abbreviation if there is one.
    So every option that [validateOptions] can report as missing was
    registered with [requiredOption]. *)
Theorem init_registers_options (args : CommandArgs.t) :
  omap CommandInit.registered (CommandInit.init args)
  = List.map (λ o, (CommandInit.flags_of o, truthy_flag (CommandOption.required o)))
      (CommandArgs.options args)
  ∧ Forall (λ o, CommandOption.flag o `suffix_of` CommandInit.flags_of o)
      (CommandArgs.options args)
  ∧ ∀ options o,
      o ∈ CommandArgs.options args → BaseCommand.missing options o = true →
      CommandInit.requiredOption (CommandInit.flags_of o) (CommandInit.text_of o)
        (CommandOption.defaultValue o) ∈ CommandInit.init args.
Proof.
  split; [|split].
  - unfold CommandInit.init. rewrite !omap_app.
    assert (omap CommandInit.registered
              (List.map CommandInit.register (CommandArgs.options args))
            = List.map (λ o, (CommandInit.flags_of o,
                              truthy_flag (CommandOption.required o)))
                (CommandArgs.options args)) as ->.
    { induction (CommandArgs.options args) as [|o os IH]; [done|].
      change (List.map CommandInit.register (o :: os))
        with ([CommandInit.register o] ++ List.map CommandInit.register os).
      rewrite omap_app, IH. unfold CommandInit.register. cbn [List.map].
      by destruct (truthy_flag (CommandOption.required o)) eqn:Hr. }
    destruct (CommandInit.truthy_text (CommandArgs.description args));
      destruct (CommandArgs.aliases args) as [[|? ?]|];
      destruct (CommandArgs.examples args) as [[|? ?]|];
      by rewrite ?app_nil_r.
  - apply Forall_forall. intros o _. unfold CommandInit.flags_of.
    destruct (CommandInit.truthy_text (CommandOption.abbreviation o)); [|done].
    rewrite app_assoc. by apply suffix_app_r.
  - intros options o Hin Hm. unfold CommandInit.init.
    rewrite !elem_of_app. right. right. left.
    apply list_elem_of_In, in_map_iff. exists o. split; [|by apply list_elem_of_In].
    unfold CommandInit.register. unfold BaseCommand.missing in Hm.
    apply andb_true_iff in Hm as [-> _]. done.
Qed.

(** At a command with a required and an optional option. *)
Lemma init_registers_options_witness :
  omap CommandInit.registered
    (CommandInit.init (BaseCommand.get_args MoreExamples.silent))
  = [(lit "-n, --name <value>", true); (lit "--verbose", false)]
  ∧ CommandInit.requiredOption (lit "-n, --name <value>") [] None
    ∈ CommandInit.init (BaseCommand.get_args MoreExamples.silent).
Proof.
  destruct (init_registers_options (BaseCommand.get_args MoreExamples.silent))
    as (Hregistered & _ & Hrequired).
  split.
  - etrans; [exact Hregistered|]. reflexivity.
  - apply (Hrequired ∅ (Examples.flag_option "--name <value>" "-n" None (Some true)));
      [left | reflexivity].
Defined.

(** ** [initBuiltIn] *)

Section BuiltInFacts.
Context {W Exn : Type}.

Lemma install_each_app (l1 l2 : list (Cli.exported W Exn)) shape :
  BuiltIn.install_each (l1 ++ l2) shape
  = match BuiltIn.install_each l1 shape with
    | (shape1, Normal _) => BuiltIn.install_each l2 shape1
    | (shape1, Throw e) => (shape1, Throw e)
    end.
Proof.
  revert shape. induction l1 as [|x l1 IH]; intros shape; [done|].
  destruct x as [plugin|command|]; simpl; [|done..].
  by destruct (CommandProgram.install plugin (BasePlugin.force plugin) shape).
Qed.

End BuiltInFacts.

(** [initBuiltIn] stops at the first built-in plugin whose name is taken
    and whose [force] is off: it throws the conflict error, and neither the
    built-in plugins behind it nor any built-in command is registered. *)
Theorem initBuiltIn_stops_at_conflict {W Exn}
    (pre post BUILT_IN_COMMANDS : list (Cli.exported W Exn))
    (plugin : BasePlugin.class W Exn)
    (shape shape1 : CommandProgram.programShape W Exn) (p : PluginType.t W Exn) :
  BuiltIn.install_each pre shape = (shape1, Normal tt) →
  BasePlugin.force plugin = false →
  p ∈ CommandProgram.plugins shape1 →
  PluginType.name p = BasePlugin.static_name plugin →
  BuiltIn.initBuiltIn (pre ++ Cli.PluginClass plugin :: post) BUILT_IN_COMMANDS shape
  = (shape1, Throw (Error (lit "Plugin '" ++ BasePlugin.static_name plugin
                           ++ lit "' already exists."))).
Proof.
  intros Hpre Hforce Hin Hname. unfold BuiltIn.initBuiltIn.
  rewrite install_each_app, Hpre. cbn [BuiltIn.install_each]. rewrite Hforce.
  by destruct (install_conflict plugin shape1 p Hin Hname) as [-> _].
Qed.

(** A [logger] found in the project, and a built-in plugin of that name:
    [timer] is installed, [error-handler] and [build] are not. *)
Lemma initBuiltIn_stops_at_conflict_witness :
  let shape := CommandProgram.after [CommandProgram.CallInstall Examples.logger false] in
  ∃ shape1,
    BuiltIn.initBuiltIn
      [Cli.PluginClass Examples.timer; Cli.PluginClass Examples.logger;
       Cli.PluginClass Examples.errorHandler]
      [Cli.CommandClass Examples.build] shape
    = (shape1, Throw (Error (lit "Plugin 'logger' already exists.")))
    ∧ List.map PluginType.name (CommandProgram.plugins shape1)
      = [lit "logger"; lit "timer"]
    ∧ CommandProgram.commands shape1 = ∅.
Proof.
  intros shape.
  pose (shape1 := (BuiltIn.install_each [Cli.PluginClass Examples.timer] shape).1).
  exists shape1. split; [|split; reflexivity].
  exact (initBuiltIn_stops_at_conflict [Cli.PluginClass Examples.timer]
           [Cli.PluginClass Examples.errorHandler] [Cli.CommandClass Examples.build]
           Examples.logger shape shape1
           {| PluginType.name := lit "logger";
              PluginType.priority := Num 50;
              PluginType.plugin := Examples.logger;
              PluginType.instance := Some (BasePlugin.new Examples.logger) |}
           eq_refl eq_refl ltac:(left) eq_refl).
Defined.

(** ** The loaders, for any outcome of the import *)


(** A plugin file that exports a class whose [priority] getter throws: the
    error goes to the console as a warning, and nothing is installed. *)
Example loadPlugin_boom :
  let import : jsstring → completion unit (Cli.file Examples.W unit) :=
    λ fn, Normal {| Cli.default_ := Some (Cli.PluginClass MoreExamples.boom) |} in
  let p := {| Cli.shape := CommandProgram.initial; Cli.console := [] |} in
  Cli.loadPlugin id (λ fn kind, fn) import (lit "boom.plugin.ts") p
  = ({| Cli.shape := CommandProgram.initial;
        Cli.console := [Cli.Warn (lit "boom.plugin.ts") (Error (lit "priority boom"))] |},
     Normal tt).
Proof. reflexivity. Qed.




(** A file whose default export is not a class of the right kind is passed
    over in silence: nothing is registered and nothing is written. *)
Theorem loaders_skip_foreign_exports {W Exn}
    (resolve : jsstring → jsstring) (getName : jsstring → Cli.kind → jsstring)
    (import : jsstring → completion Exn (Cli.file W Exn))
    (fn : jsstring) (p : Cli.process W Exn) (f : Cli.file W Exn) :
  import (resolve fn) = Normal f →
  ((∀ c, Cli.default_ f ≠ Some (Cli.PluginClass c)) →
     Cli.loadPlugin resolve getName import fn p = (p, Normal tt))
  ∧ ((∀ c, Cli.default_ f ≠ Some (Cli.CommandClass c)) →
     Cli.loadCommand resolve getName import fn p = (p, Normal tt)).
Proof.
  intros Hi. unfold Cli.loadPlugin, Cli.loadPlugin_body, Cli.loadCommand,
    Cli.loadCommand_body, Cli.default_or_file. rewrite Hi.
  split; intros Hnot; destruct (Cli.default_ f) as [[c|c|]|]; try done;
    by destruct (Hnot c).
Qed.

(** A plugin file that exports a command class, and a module without a
    default export. *)
Lemma loaders_skip_foreign_exports_witness :
  let p : Cli.process Examples.W unit :=
    {| Cli.shape := CommandProgram.initial; Cli.console := [] |} in
  Cli.loadPlugin id (λ fn kind, fn)
    (λ fn, Normal {| Cli.default_ := Some (Cli.CommandClass Examples.build) |})
    (lit "build.plugin.ts") p = (p, Normal tt)
  ∧ Cli.loadCommand id (λ fn kind, fn) (λ fn, Normal {| Cli.default_ := None |})
      (lit "empty.cmd.ts") p = (p, Normal tt).
Proof.
  intros p. split.
  - apply (loaders_skip_foreign_exports id (λ fn kind, fn)
             (λ fn, Normal {| Cli.default_ := Some (Cli.CommandClass Examples.build) |})
             (lit "build.plugin.ts") p _ eq_refl).
    intros c. discriminate.
  - apply (loaders_skip_foreign_exports id (λ fn kind, fn)
             (λ fn, Normal {| Cli.default_ := None |})
             (lit "empty.cmd.ts") p _ eq_refl).
    intros c. discriminate.
Defined.

Section StartFacts.
Context {W Exn : Type}.
Variable resolve : jsstring → jsstring.
Variable getName : jsstring → Cli.kind → jsstring.
Variable import : jsstring → completion Exn (Cli.file W Exn).




End StartFacts.



(** ** The directory walk and the name of a file *)

Section WalkFacts.
Variable join : jsstring → jsstring → jsstring.

Local Abbreviation script :=
  (λ fn, Cli.endsWith fn (lit ".ts") || Cli.endsWith fn (lit ".js") = true).

Lemma includes_nil name : includes [] name = false.
Proof. unfold includes. apply bool_decide_eq_false. by intros ?%elem_of_nil. Qed.

Lemma traverse_item_scripts ignore :
  ∀ i root, Forall script (Walk.traverse_item join ignore root i).
Proof.
  fix IH 1. intros [name|name items|name] root; simpl.
  - destruct (includes ignore name); [constructor|].
    destruct (Cli.endsWith (join root name) (lit ".ts")) eqn:Hts;
      destruct (Cli.endsWith (join root name) (lit ".js")) eqn:Hjs; simpl;
      repeat constructor; by rewrite Hts, Hjs.
  - destruct (includes ignore name); [constructor|].
    induction items as [|c cs IHcs]; simpl; [constructor|].
    apply Forall_app. split; [apply IH | apply IHcs].
  - destruct (includes ignore name); constructor.
Qed.

Lemma traverse_item_prune ignore :
  ∀ i root,
    Walk.traverse_item join ignore root i
    = flat_map (Walk.traverse_item join [] root) (Walk.prune ignore i).
Proof.
  fix IH 1. intros [name|name items|name] root;
    cbn [Walk.traverse_item Walk.prune Walk.name_of].
  - destruct (includes ignore name); cbn [flat_map Walk.traverse_item Walk.name_of];
      [done|].
    rewrite includes_nil. by rewrite app_nil_r.
  - destruct (includes ignore name); cbn [flat_map Walk.traverse_item Walk.name_of];
      [done|].
    rewrite includes_nil, app_nil_r.
    induction items as [|c cs IHcs]; cbn [flat_map]; [done|].
    rewrite flat_map_app, <- IHcs. f_equal. apply IH.
  - destruct (includes ignore name); cbn [flat_map Walk.traverse_item Walk.name_of];
      [done|].
    by rewrite includes_nil.
Qed.

(** The first occurrence of a pattern that starts with a dot, behind a
    part without dots. *)
Lemma replace_first_after (pattern name rest : jsstring) :
  Forall (λ c, c ≠ 46%N) name →
  JSText.replace_first (46%N :: pattern) [] (name ++ 46%N :: pattern ++ rest)
  = name ++ rest.
Proof.
  induction 1 as [|c name Hc _ IH].
  - cbn [app JSText.replace_first].
    rewrite bool_decide_eq_true_2 by (by exists rest).
    cbn [length drop app]. by rewrite drop_app_length.
  - cbn [app JSText.replace_first]. rewrite bool_decide_eq_false_2.
    + by rewrite IH.
    + intros [k Hk]. by injection Hk as ->.
Qed.

End WalkFacts.

(** The walk hands only paths that end in [.ts] or [.js] to its callback. *)
Theorem traversaDirectory_only_scripts (join : jsstring → jsstring → jsstring)
    (root : jsstring) (items : list Walk.item) (ignore : list jsstring) :
  Forall (λ fn, Cli.endsWith fn (lit ".ts") || Cli.endsWith fn (lit ".js") = true)
    (Walk.traversaDirectory join root items ignore).
Proof.
  unfold Walk.traversaDirectory.
  induction items as [|i items IH]; simpl; [constructor|].
  apply Forall_app. split; [apply traverse_item_scripts | apply IH].
Qed.

(** An ignored name cuts off the item that carries it, file or directory,
    at any depth: the walk is the walk, with nothing ignored, of the tree
    from which those items are taken out. *)
Theorem traversaDirectory_ignores (join : jsstring → jsstring → jsstring)
    (root : jsstring) (items : list Walk.item) (ignore : list jsstring) :
  Walk.traversaDirectory join root items ignore
  = Walk.traversaDirectory join root (flat_map (Walk.prune ignore) items) [].
Proof.
  unfold Walk.traversaDirectory.
  induction items as [|i items IH]; simpl; [done|].
  by rewrite flat_map_app, <- IH, <- traverse_item_prune.
Qed.

(** [getName] takes the first [.cmd] (or [.plugin]) out of the file's base
    name without extension: when what stands before it has no dot, the
    name is that part followed by whatever stands behind the marker. *)
Theorem getName_removes_first_marker
    (basename : jsstring → jsstring → jsstring) (extname : jsstring → jsstring)
    (fn : jsstring) (key : Cli.kind) (name rest : jsstring) :
  basename fn (extname fn) = name ++ lit "." ++ Walk.key_of key ++ rest →
  Forall (λ c, c ≠ 46%N) name →
  Walk.getName basename extname fn key = name ++ rest.
Proof.
  intros Hstem Hname. unfold Walk.getName. rewrite Hstem.
  change (lit "." ++ Walk.key_of key ++ rest)
    with (46%N :: Walk.key_of key ++ rest).
  change (lit "." ++ Walk.key_of key) with (46%N :: Walk.key_of key).
  by apply replace_first_after.
Qed.

(** [example.cmd.ts] gives [example]; of [a.plugin.b.plugin.js] the first
    marker goes and the second stays. *)
Lemma getName_removes_first_marker_witness :
  Walk.getName (λ fn ext, lit "example.cmd") (λ fn, lit ".ts")
    (lit "/path/to/example.cmd.ts") Cli.cmd = lit "example"
  ∧ Walk.getName (λ fn ext, lit "a.plugin.b.plugin") (λ fn, lit ".js")
      (lit "a.plugin.b.plugin.js") Cli.plugin = lit "a.b.plugin".
Proof.
  split.
  - apply (getName_removes_first_marker (λ fn ext, lit "example.cmd") (λ fn, lit ".ts")
             (lit "/path/to/example.cmd.ts") Cli.cmd (lit "example") []);
      [reflexivity|]. repeat constructor; discriminate.
  - apply (getName_removes_first_marker (λ fn ext, lit "a.plugin.b.plugin")
             (λ fn, lit ".js") (lit "a.plugin.b.plugin.js") Cli.plugin
             (lit "a") (lit ".b.plugin"));
      [reflexivity|]. repeat constructor; discriminate.
Defined.

(** The walk of a small tree, with [node_modules] ignored. *)
Example traversaDirectory_tree :
  Walk.traversaDirectory MoreExamples.join (lit ".") MoreExamples.tree
    [lit "node_modules"]
  = [lit "./hello.cmd.ts"; lit "./plugins/logger.plugin.ts"]
  ∧ Walk.traversaDirectory MoreExamples.join (lit ".") MoreExamples.tree []
    = [lit "./hello.cmd.ts"; lit "./node_modules/pkg/index.js";
       lit "./plugins/logger.plugin.ts"].
Proof. split; reflexivity. Qed.

(** Three bound commands, one of them without a group of its own. *)
Lemma sortedGroups_default_last_witness :
  let bound (c : BaseCommand.class Examples.W Examples.Exn) :=
    CommandProgram.setupCommand []
      {| CommandType.name := BaseCommand.static_name c; CommandType.command := c;
         CommandType.instance := None; CommandType.group := None |} in
  let commands := [bound MoreExamples.silent; bound Examples.build; bound Examples.test] in
  last (Help.sortedGroups (λ a b, 0) (Help.groupCommands commands))
  = Some (lit "default", [bound MoreExamples.silent])
  ∧ (Help.sortedGroups (λ a b, 0) (Help.groupCommands commands)).*1
    = [lit "build"; lit "test"; lit "default"].
Proof.
  intros bound commands.
  destruct (sortedGroups_default_last (λ a b, 0) commands) as [_ Hlast].
  split; [|reflexivity].
  etrans; [apply (Hlast (bound MoreExamples.silent)); [left | reflexivity]|].
  reflexivity.
Defined.
